(** * Hangman: the round engine, the scoring rule and the score file

    A shallow embedding of [hangman.py].  Python values are modelled as
    follows.

    - [int] is [Z] (unbounded).
    - [str] is a list of Unicode code points, each an [N].  String literals
      of the program are written [lit "..."].
    - [set] is [gset], [dict] is [gmap].
    - A raised exception is the [Raise] case of [result].
    - [random.choice] takes the number drawn by the generator as an
      argument, [input()] takes the typed line as an argument.  The lines
      typed are a finite list; where it ends, [input] has nothing to read.
    - [str.lower] and [str.isalpha] are builtins whose tables (the Unicode
      character database) are not part of the program; they are the two
      methods of the class [Unicode].  [ucd] is an instance holding the
      entries of that database that the examples touch.

    - [int] applied to a string is a builtin too, the method of the class
      [IntParser]; [ascii_int] is an instance for the examples.

    Printing, colours, [time.sleep] and [clear_screen] change nothing that is
    read again and are left out; each branch of the game loop that prints a
    message returns a [Reply] naming it.  [play], [play_hangman] and the
    properties of the round start from the difficulty chosen and the word
    drawn; [select_category], [select_difficulty], the word lists and the
    whole call [play_hangman_menus] come after them.  [display_welcome],
    [display_high_scores] and [main_menu] are not modelled. *)

From Stdlib Require Import ZArith NArith QArith Ascii String.
From stdpp Require Import gmap strings list fin_maps fin_sets.

Local Open Scope Z_scope.

(** ** Python values *)

Abbreviation str := (list N).

Definition lit (s : string) : str := N_of_ascii <$> list_ascii_of_string s.

Inductive exn :=
  | FileNotFoundError
  | PermissionError
  | UnicodeDecodeError
  | JSONDecodeError
  | RecursionError
  | ValueError
  | EOFError
  | KeyError
  | TypeError
  | IndexError.

Inductive result (A : Type) :=
  | Return (a : A)
  | Raise (e : exn).
Arguments Return {A} a.
Arguments Raise {A} e.

Definition bind {A B} (m : result A) (k : A -> result B) : result B :=
  match m with
  | Return a => k a
  | Raise e => Raise e
  end.

Notation "'let*' x ':=' m 'in' k" := (bind m (fun x => k))
  (at level 10, x name, m at level 100, k at level 200).

(** [d[k]] on a dict. *)
Definition getitem {V} (d : gmap str V) (k : str) : result V :=
  match d !! k with
  | Some v => Return v
  | None => Raise KeyError
  end.

(** [l[i]] on a list: a negative index counts from the end. *)
Definition list_getitem {A} (l : list A) (i : Z) : result A :=
  let n := Z.of_nat (length l) in
  let j := if i <? 0 then i + n else i in
  if (0 <=? j) && (j <? n)
  then match l !! Z.to_nat j with
       | Some a => Return a
       | None => Raise IndexError
       end
  else Raise IndexError.

(** [sub in s] on strings: [sub] occurs as a contiguous slice of [s]. *)
Fixpoint startswith (s p : str) {struct p} : bool :=
  match p, s with
  | [], _ => true
  | _ :: _, [] => false
  | c :: p', d :: s' => (c =? d)%N && startswith s' p'
  end.

Fixpoint str_in (sub s : str) : bool :=
  startswith s sub ||
  match s with
  | [] => false
  | _ :: s' => str_in sub s'
  end.

(** [random.choice(seq)] for a non-empty [seq]; [r] is the number drawn. *)
Definition random_choice {A} (r : nat) (seq : list A) : option A :=
  seq !! (r `mod` length seq)%nat.

(** ** Difficulty levels *)

Record Settings := { s_max_wrong : Z; s_hint : bool }.

Definition difficulty_levels : gmap str Settings :=
  {[ lit "easy" := {| s_max_wrong := 8; s_hint := true |};
     lit "medium" := {| s_max_wrong := 6; s_hint := true |};
     lit "hard" := {| s_max_wrong := 4; s_hint := false |} ]}.

(** ** Scoring *)

Definition difficulty_multiplier : gmap str Z :=
  {[ lit "easy" := 1; lit "medium" := 2; lit "hard" := 3 ]}.

Definition calculate_score (difficulty : str) (word_length wrong_attempts : Z)
  : result Z :=
  let base_score := word_length * 10 in
  let penalty := wrong_attempts * 5 in
  let* m := getitem difficulty_multiplier difficulty in
  Return (Z.max 0 (base_score - penalty) * m).

(** The rule as the specification words it. *)
Inductive Difficulty := Easy | Medium | Hard.

Definition name (d : Difficulty) : str :=
  match d with
  | Easy => lit "easy"
  | Medium => lit "medium"
  | Hard => lit "hard"
  end.

Definition multiplier (d : Difficulty) : Z :=
  match d with Easy => 1 | Medium => 2 | Hard => 3 end.

Definition computeScore_spec (d : Difficulty) (wordLength wrongCount : Z) : Z :=
  Z.max 0 (wordLength * 10 - wrongCount * 5) * multiplier d.

(** ** Hangman pictures *)

Definition hangman_pics : list str :=
  [ lit "
      +---+
          |
          |
          |
         ===";
    lit "
      +---+
      O   |
          |
          |
         ===";
    lit "
      +---+
      O   |
      |   |
          |
         ===";
    lit "
      +---+
      O   |
     /|   |
          |
         ===";
    lit "
      +---+
      O   |
     /|\  |
          |
         ===";
    lit "
      +---+
      O   |
     /|\  |
     /    |
         ===";
    lit "
      +---+
      O   |
     /|\  |
     / \  |
         ===" ].

(** ** The score file [hangman_scores.json] *)

(** A Python [float], by its exact value. *)
Inductive pyfloat :=
  | FNan
  | FInf (negative : bool)
  | FFinite (q : Q).

(** What [json.load] can return. *)
#[warnings="-register-all"] Inductive json :=
  | JNull
  | JBool (b : bool)
  | JInt (z : Z)
  | JFloat (f : pyfloat)
  | JStr (s : str)
  | JList (l : list json)
  | JDict (d : gmap str json).

(** The states of the file that the program can meet, told apart by what
    opening it and [json.load] do.  [Document v] is a file from whose text
    [json.load] returns [v]; [json.dump] followed by [json.load] gives back
    the value written.

    Writing is modelled where it succeeds: a file that is absent or that
    could be read is taken to be writable, and the score written to be one
    that [json.dump] can print.  A file that cannot be written, and a score
    of more digits than the interpreter converts to text, make the real
    [save_score] raise while writing; what is stated below about a write
    is stated for calls that return. *)
Inductive File :=
  | Absent                (* no such file *)
  | Denied                (* exists, cannot be opened *)
  | Binary                (* bytes that do not decode as text *)
  | Garbled               (* text that [json.load] rejects as malformed *)
  | TooDeep               (* text nested deeper than the parser recurses *)
  | Oversized             (* JSON with an integer of more digits than [int]
                             converts, 4300 by default *)
  | Document (v : json).

(** [with open('hangman_scores.json', 'r') as f: return json.load(f)] *)
Definition open_and_load (fs : File) : result json :=
  match fs with
  | Absent => Raise FileNotFoundError
  | Denied => Raise PermissionError
  | Binary => Raise UnicodeDecodeError
  | Garbled => Raise JSONDecodeError
  | TooDeep => Raise RecursionError
  | Oversized => Raise ValueError
  | Document v => Return v
  end.

Definition zero_scores : json :=
  JDict {[ lit "easy" := JInt 0; lit "medium" := JInt 0; lit "hard" := JInt 0 ]}.

Definition load_scores (fs : File) : result json :=
  match open_and_load fs with
  | Raise FileNotFoundError | Raise JSONDecodeError => Return zero_scores
  | r => r
  end.

(** [v[k]] for a string [k]. *)
Definition subscript (v : json) (k : str) : result json :=
  match v with
  | JDict d => getitem d k
  | _ => Raise TypeError
  end.

(** [v[k] = x] for a string [k]. *)
Definition store_subscript (v : json) (k : str) (x : json) : result json :=
  match v with
  | JDict d => Return (JDict (<[k:=x]> d))
  | _ => Raise TypeError
  end.

(** [a > v] for an [int] [a]. *)
Definition int_gt (a : Z) (v : json) : result bool :=
  match v with
  | JInt z => Return (z <? a)
  | JBool b => Return ((if b then 1 else 0) <? a)
  | JFloat FNan => Return false
  | JFloat (FInf negative) => Return negative
  | JFloat (FFinite q) => Return (negb (Qle_bool (inject_Z a) q))
  | _ => Raise TypeError
  end.

(** Returns the value of the call and the file as it is left. *)
Definition save_score (difficulty : str) (score : Z) (fs : File)
  : result bool * File :=
  match load_scores fs with
  | Raise e => (Raise e, fs)
  | Return scores =>
      match (let* current := subscript scores difficulty in int_gt score current) with
      | Raise e => (Raise e, fs)
      | Return false => (Return false, fs)
      | Return true =>
          match store_subscript scores difficulty (JInt score) with
          | Raise e => (Raise e, fs)
          | Return scores' => (Return true, Document scores')
          end
      end
  end.

(** ** Builtins that read the Unicode character database *)

Class Unicode := {
  lower : str -> str;        (* [s.lower()] *)
  isalpha : str -> bool      (* [s.isalpha()] *)
}.

(** ** The round *)

(** The local variables of [play_hangman] once the word is drawn.  [hint]
    is [difficulty_settings['hint']]. *)
Record Round := {
  difficulty : str;
  hint : bool;
  word : str;
  max_wrong : Z;
  guessed_letters : gset str;
  wrong_attempts : Z;
  hint_used : bool
}.

Definition set_hint_used (st : Round) : Round :=
  {| difficulty := difficulty st; hint := hint st; word := word st;
     max_wrong := max_wrong st; guessed_letters := guessed_letters st;
     wrong_attempts := wrong_attempts st; hint_used := true |}.

Definition add_guess (guess : str) (st : Round) : Round :=
  {| difficulty := difficulty st; hint := hint st; word := word st;
     max_wrong := max_wrong st;
     guessed_letters := {[ guess ]} ∪ guessed_letters st;
     wrong_attempts := wrong_attempts st; hint_used := hint_used st |}.

Definition count_wrong (st : Round) : Round :=
  {| difficulty := difficulty st; hint := hint st; word := word st;
     max_wrong := max_wrong st; guessed_letters := guessed_letters st;
     wrong_attempts := wrong_attempts st + 1; hint_used := hint_used st |}.

(** Lines 216-226; [word] is the word that [random.choice] drew. *)
Definition start (difficulty word : str) : result Round :=
  let* difficulty_settings := getitem difficulty_levels difficulty in
  Return {| difficulty := difficulty;
            hint := s_hint difficulty_settings;
            word := word;
            max_wrong := s_max_wrong difficulty_settings;
            guessed_letters := ∅;
            wrong_attempts := 0;
            hint_used := false |}.

(** [for letter in word]: the one-character strings of [word], in order. *)
Definition letters (word : str) : list str := (fun c => [c]) <$> word.

Definition get_hint (r : nat) (word : str) (guessed_letters : gset str)
  : option str :=
  let not_guessed :=
    filter (fun letter => letter ∉ guessed_letters) (letters word) in
  match not_guessed with
  | [] => None
  | _ :: _ => random_choice r not_guessed
  end.

(** What [display_game_state] shows: the picture, the attempts left and,
    for each letter of the word, the letter or a blank.  The line listing
    the guessed letters is not modelled. *)
Record Screen := {
  picture : str;
  attempts_remaining : Z;
  display_word : list (option str)
}.

Definition hangman_stage (wrong_attempts : Z) : Z :=
  Z.min wrong_attempts (Z.of_nat (length hangman_pics) - 1).

Definition display_game_state (word : str) (guessed_letters : gset str)
    (wrong_attempts max_wrong : Z) : result Screen :=
  let* pic := list_getitem hangman_pics (hangman_stage wrong_attempts) in
  Return {| picture := pic;
            attempts_remaining := max_wrong - wrong_attempts;
            display_word :=
              (fun letter =>
                 if decide (letter ∈ guessed_letters) then Some letter else None)
                <$> letters word |}.

(** [all(letter in guessed_letters for letter in word)] *)
Definition all_guessed (st : Round) : bool :=
  forallb (fun letter => bool_decide (letter ∈ guessed_letters st))
          (letters (word st)).

(** The messages of the loop body. *)
Inductive Reply :=
  | HintMsg (hint_letter : option str)   (* Hint: Try the letter ... *)
  | SingleLetterMsg                      (* Please enter a single letter. *)
  | AlreadyGuessedMsg                    (* You've already guessed that letter. *)
  | GoodGuessMsg                         (* Good guess! *)
  | WrongGuessMsg.                       (* Wrong guess! *)

(** How one pass through the loop body ends: [return] at line 266, or back
    to the head of the loop. *)
Inductive Step :=
  | Abort
  | Again (reply : Reply) (st : Round).

(** Lines 275-295: validation and processing of [guess]. *)
Definition submit_guess {U : Unicode} (st : Round) (guess : str) : Step :=
  if negb (isalpha guess) || negb (length guess =? 1)%nat then
    Again SingleLetterMsg st
  else if decide (guess ∈ guessed_letters st) then
    Again AlreadyGuessedMsg st
  else
    let st := add_guess guess st in
    if str_in guess (word st) then Again GoodGuessMsg st
    else Again WrongGuessMsg (count_wrong st).

(** Lines 260-295: [line] is what [input] returns, [r] the number the
    generator draws if a hint is given. *)
Definition turn {U : Unicode} (st : Round) (line : str) (r : nat) : Step :=
  let guess := lower line in
  if decide (guess = lit "!") then Abort
  else if bool_decide (guess = lit "?") && hint st && negb (hint_used st) then
    let hint_letter := get_hint r (word st) (guessed_letters st) in
    Again (HintMsg hint_letter) (set_hint_used st)
  else submit_guess st guess.

(** The two checks at the head of the loop, lines 233 and 246. *)
Inductive Verdict := Win | Loss | Running.

Definition verdict (st : Round) : Verdict :=
  if all_guessed st then Win
  else if max_wrong st <=? wrong_attempts st then Loss
  else Running.

(** How [play_hangman] leaves the loop.  [Won] is announced before the
    score is computed and saved; [tally] is the score and whether it is a
    new high score, or the exception raised on the way.  [Waiting st] is
    the round in state [st] with every line typed so far read: [input]
    waits for the next line, or raises [EOFError] if the input is closed. *)
Inductive Outcome :=
  | Won (tally : result (Z * bool))
  | Lost
  | Aborted
  | Waiting (st : Round)
  | Crashed (e : exn).

(** Lines 234-243. *)
Definition win (st : Round) (fs : File) : Outcome * File :=
  match calculate_score (difficulty st) (Z.of_nat (length (word st)))
                        (wrong_attempts st) with
  | Raise e => (Won (Raise e), fs)
  | Return score =>
      match save_score (difficulty st) score fs with
      | (Raise e, fs') => (Won (Raise e), fs')
      | (Return new_high, fs') => (Won (Return (score, new_high)), fs')
      end
  end.

(** The loop of [play_hangman] from state [st], fed the lines typed and
    the numbers drawn. *)
Fixpoint play {U : Unicode} (st : Round) (fs : File) (inputs : list (str * nat))
  : Outcome * File :=
  match display_game_state (word st) (guessed_letters st)
                           (wrong_attempts st) (max_wrong st) with
  | Raise e => (Crashed e, fs)
  | Return _ =>
      match verdict st with
      | Win => win st fs
      | Loss => (Lost, fs)
      | Running =>
          match inputs with
          | [] => (Waiting st, fs)
          | (line, r) :: inputs =>
              match turn st line r with
              | Abort => (Aborted, fs)
              | Again _ st => play st fs inputs
              end
          end
      end
  end.

(** [play_hangman] after the two menus. *)
Definition play_hangman {U : Unicode} (difficulty word : str) (fs : File)
    (inputs : list (str * nat)) : Outcome * File :=
  match start difficulty word with
  | Raise e => (Crashed e, fs)
  | Return st => play st fs inputs
  end.

(** ** An excerpt of the Unicode character database

    The rows for U+0000-U+00FF, U+0130 and U+0307.  Every other code point
    gets the default row (not a letter, no case mapping), which is not the
    row the database has for all of them: [ucd] is used below only to
    evaluate the program on strings made of the listed code points. *)

Definition between (a b c : N) : bool := ((a <=? c) && (c <=? b))%N.

Definition ucd_alphabetic (c : N) : bool :=
  between 65 90 c || between 97 122 c ||
  (c =? 170)%N || (c =? 181)%N || (c =? 186)%N ||
  between 192 214 c || between 216 246 c || between 248 255 c ||
  (c =? 304)%N.

Definition ucd_lowercase (c : N) : str :=
  if between 65 90 c || between 192 214 c || between 216 222 c
  then [(c + 32)%N]
  else if (c =? 304)%N then [105; 775]%N
  else [c].

Definition ucd : Unicode := {|
  lower s := s ≫= ucd_lowercase;
  isalpha s := match s with [] => false | _ => forallb ucd_alphabetic s end
|}.

(** ** Vocabulary of the properties *)

(** The guessed letters that do not occur in the word. *)
Definition misses (st : Round) : gset str :=
  filter (fun g => str_in g (word st) = false) (guessed_letters st).

(** A round as line 222-226 leave it. *)
Definition fresh (st : Round) : Prop :=
  guessed_letters st = ∅ /\ wrong_attempts st = 0 /\ hint_used st = false.

(** [reachable st0 st]: the loop body, run some number of times from [st0]
    on any lines and any draws, leaves [st]. *)
Inductive reachable {U : Unicode} (st0 : Round) : Round -> Prop :=
  | reach_refl : reachable st0 st0
  | reach_turn st line r reply st' :
      reachable st0 st ->
      turn st line r = Again reply st' ->
      reachable st0 st'.

(** The replies that the specification calls [InvalidInput]. *)
Definition invalid_input (reply : Reply) : Prop :=
  reply = SingleLetterMsg \/ reply = AlreadyGuessedMsg.

(** A lowercased line that is a guess of one letter absent from [w]. *)
Definition wrong_letter {U : Unicode} (w guess : str) : Prop :=
  guess <> lit "!" /\ guess <> lit "?" /\
  isalpha guess = true /\ length guess = 1%nat /\ str_in guess w = false.

(** The four ways [submit_guess] can end. *)
Inductive submitted {U : Unicode} (st : Round) (guess : str) : Reply -> Round -> Prop :=
  | sub_malformed :
      isalpha guess = false \/ length guess <> 1%nat ->
      submitted st guess SingleLetterMsg st
  | sub_repeated :
      isalpha guess = true -> length guess = 1%nat ->
      guess ∈ guessed_letters st ->
      submitted st guess AlreadyGuessedMsg st
  | sub_good :
      isalpha guess = true -> length guess = 1%nat ->
      guess ∉ guessed_letters st -> str_in guess (word st) = true ->
      submitted st guess GoodGuessMsg (add_guess guess st)
  | sub_wrong :
      isalpha guess = true -> length guess = 1%nat ->
      guess ∉ guessed_letters st -> str_in guess (word st) = false ->
      submitted st guess WrongGuessMsg (count_wrong (add_guess guess st)).

(** The round after the guesses [gs], each of them a wrong one. *)
Definition after_wrong (st : Round) (gs : list str) : Round :=
  foldl (fun st g => count_wrong (add_guess g st)) st gs.

(** The lowercased lines of the input. *)
Definition lowered {U : Unicode} (inputs : list (str * nat)) : list str :=
  (fun i => lower i.1) <$> inputs.

(** C10 as it is stated: a line that is one alphabetic character is
    accepted, and its lowercase form joins the guessed letters. *)
Definition single_letter_accepted (U : Unicode) : Prop :=
  forall st c r,
    isalpha [c] = true -> lower [c] ∉ guessed_letters st ->
    exists reply st',
      turn st [c] r = Again reply st' /\
      guessed_letters st' = {[ lower [c] ]} ∪ guessed_letters st.

(** Rounds used as examples: 'mango' on hard and 'kiwi' on easy, as
    [start] makes them, and a round on 'hi' in which every letter is
    guessed although the count of wrong attempts is at the cap. *)
Definition mango_hard : Round :=
  {| difficulty := lit "hard"; hint := false; word := lit "mango";
     max_wrong := 4; guessed_letters := ∅; wrong_attempts := 0;
     hint_used := false |}.

Definition kiwi_easy : Round :=
  {| difficulty := lit "easy"; hint := true; word := lit "kiwi";
     max_wrong := 8; guessed_letters := ∅; wrong_attempts := 0;
     hint_used := false |}.

Definition hi_both : Round :=
  {| difficulty := lit "hard"; hint := false; word := lit "hi";
     max_wrong := 4;
     guessed_letters := {[ lit "h"; lit "i"; lit "w"; lit "x"; lit "y"; lit "z" ]};
     wrong_attempts := 4; hint_used := false |}.

(** [load_scores()[difficulty]] *)
Definition stored (fs : File) (difficulty : str) : result json :=
  let* scores := load_scores fs in subscript scores difficulty.

(** A value with the three keys of the score record. *)
Definition has_all_keys (v : json) : Prop :=
  exists d, v = JDict d /\
    is_Some (d !! lit "easy") /\ is_Some (d !! lit "medium") /\
    is_Some (d !! lit "hard").

(** ** The word lists and the two menus *)

(** [word_categories], as its items in the order they are written: the
    order is the one of [word_categories.keys()]. *)
Definition word_categories : list (str * list str) :=
  [
    (lit "fruits", lit <$> [
      "apple"; "banana"; "mango"; "strawberry"; "orange"; "grape";
      "pineapple"; "apricot"; "lemon"; "coconut"; "watermelon"; "cherry";
      "papaya"; "berry"; "peach"; "lychee"; "muskmelon"; "kiwi";
      "pomegranate"; "dragonfruit" ]%string);
    (lit "animals", lit <$> [
      "elephant"; "giraffe"; "monkey"; "zebra"; "lion"; "tiger"; "bear";
      "wolf"; "fox"; "deer"; "rabbit"; "squirrel"; "dolphin"; "whale";
      "shark"; "eagle"; "hawk"; "snake"; "turtle"; "crocodile" ]%string);
    (lit "countries", lit <$> [
      "india"; "australia"; "japan"; "brazil"; "canada"; "mexico"; "france";
      "germany"; "italy"; "spain"; "egypt"; "china"; "russia"; "kenya";
      "nigeria"; "peru"; "chile"; "sweden"; "finland"; "norway" ]%string);
    (lit "vegetables", lit <$> [
      "carrot"; "potato"; "tomato"; "cabbage"; "spinach"; "broccoli";
      "cauliflower"; "cucumber"; "eggplant"; "pepper"; "celery"; "lettuce";
      "radish"; "onion"; "garlic"; "pumpkin"; "zucchini"; "squash" ]%string) ].

(** [d[k]] on a dict given by its items. *)
Fixpoint items_getitem {V} (d : list (str * V)) (k : str) : result V :=
  match d with
  | [] => Raise KeyError
  | (k', v) :: d => if decide (k' = k) then Return v else items_getitem d k
  end.

(** [int(s)] is a builtin; [None] stands for [ValueError], which both menus
    catch. *)
Class IntParser := {
  int_of_str : str -> option Z
}.

(** Lines 140-148.  The result is [None] when the lines typed run out
    before a valid choice: [input] then has nothing to read and raises
    [EOFError], which the [except ValueError] does not catch.  Otherwise it
    is the value returned (or the exception raised) and the lines left. *)
Fixpoint select_category {P : IntParser} (inputs : list (str * nat))
  : option (result str * list (str * nat)) :=
  match inputs with
  | [] => None
  | (line, _) :: inputs =>
      match int_of_str line with
      | None => select_category inputs
      | Some choice =>
          if (1 <=? choice) && (choice <=? Z.of_nat (length word_categories))
          then Some (list_getitem (word_categories.*1) (choice - 1), inputs)
          else select_category inputs
      end
  end.

(** Lines 158-170; [None] is the end of the lines typed, as in
    [select_category]. *)
Fixpoint select_difficulty {P : IntParser} (inputs : list (str * nat))
  : option (str * list (str * nat)) :=
  match inputs with
  | [] => None
  | (line, _) :: inputs =>
      match int_of_str line with
      | None => select_difficulty inputs
      | Some choice =>
          if choice =? 1 then Some (lit "easy", inputs)
          else if choice =? 2 then Some (lit "medium", inputs)
          else if choice =? 3 then Some (lit "hard", inputs)
          else select_difficulty inputs
      end
  end.

(** Line 219: [random.choice(word_categories[category])]; [random.choice]
    raises [IndexError] on an empty list. *)
Definition draw_word (category : str) (r : nat) : result str :=
  let* words := items_getitem word_categories category in
  match random_choice r words with
  | Some word => Return word
  | None => Raise IndexError
  end.

(** The lines that the loop of [play_hangman] leaves unread. *)
Fixpoint unread {U : Unicode} (st : Round) (inputs : list (str * nat))
  : list (str * nat) :=
  match display_game_state (word st) (guessed_letters st)
                           (wrong_attempts st) (max_wrong st) with
  | Raise _ => inputs
  | Return _ =>
      match verdict st with
      | Win | Loss => inputs
      | Running =>
          match inputs with
          | [] => []
          | (line, r) :: inputs =>
              match turn st line r with
              | Abort => inputs
              | Again _ st => unread st inputs
              end
          end
      end
  end.

(** How a call of [play_hangman] on a closed input ends: it returns
    ([None] after '!', else the answer to "Play again?"), or an exception
    leaves it; when the lines typed run out that exception is the
    [EOFError] of [input].  Each case carries the score file as it is
    left. *)
Inductive Called :=
  | Returned (play_again : option bool) (fs : File) (rest : list (str * nat))
  | Escaped (e : exn) (fs : File).

(** [play_hangman] as a whole, lines 211-299; [r_word] is the number drawn
    for the word. *)
Definition play_hangman_menus {U : Unicode} {P : IntParser} (fs : File)
    (r_word : nat) (inputs : list (str * nat)) : Called :=
  match select_category inputs with
  | None => Escaped EOFError fs
  | Some (Raise e, _) => Escaped e fs
  | Some (Return category, inputs) =>
      match select_difficulty inputs with
      | None => Escaped EOFError fs
      | Some (difficulty, inputs) =>
          match (let* difficulty_settings := getitem difficulty_levels difficulty in
                 let* word := draw_word category r_word in
                 start difficulty word) with
          | Raise e => Escaped e fs
          | Return st =>
              match play st fs inputs with
              | (Crashed e, fs') => Escaped e fs'
              | (Won (Raise e), fs') => Escaped e fs'
              | (Aborted, fs') => Returned None fs' (unread st inputs)
              | (Waiting _, fs') => Escaped EOFError fs'
              | (Won (Return _), fs') | (Lost, fs') =>
                  match unread st inputs with
                  | [] => Escaped EOFError fs'
                  | (line, _) :: rest =>
                      Returned (Some (startswith (lower line) (lit "y")))
                               fs' rest
                  end
              end
          end
      end
  end.

(** [int] on the strings of ASCII digits; every other string is refused,
    which is not what [int] does for all of them (it accepts a sign, blanks
    around the digits and other decimal digits): [ascii_int] is used below
    only on strings of ASCII digits and on strings without any digit. *)
Definition digit_value (c : N) : option Z :=
  if between 48 57 c then Some (Z.of_N c - 48) else None.

Fixpoint digits_value (acc : Z) (s : str) : option Z :=
  match s with
  | [] => Some acc
  | c :: s =>
      match digit_value c with
      | Some d => digits_value (acc * 10 + d) s
      | None => None
      end
  end.

Definition ascii_int : IntParser := {|
  int_of_str s := match s with [] => None | _ => digits_value 0 s end
|}.

(** ** More vocabulary *)

(** A word of the kind the lists hold: not empty, letters a to z only. *)
Definition lowercase_word (w : str) : bool :=
  match w with [] => false | _ => forallb (between 97 122) w end.

(** A score file from which [load_scores] gives an integer for each of
    the three difficulties. *)
Definition scores_ok (fs : File) : Prop :=
  forall d, exists z, stored fs (name d) = Return (JInt z).

(** A lowercased line that is a guess of one letter of [w]. *)
Definition right_letter {U : Unicode} (w guess : str) : Prop :=
  guess <> lit "!" /\ guess <> lit "?" /\
  isalpha guess = true /\ guess ∈ letters w.

(** The round after the guesses [gs], each of them a good one. *)
Definition after_good (st : Round) (gs : list str) : Round :=
  foldl (fun st g => add_guess g st) st gs.

(** The input with every line replaced by its lowercase form. *)
Definition lower_lines {U : Unicode} (inputs : list (str * nat))
  : list (str * nat) :=
  (fun i => (lower i.1, i.2)) <$> inputs.

(** * Properties *)

(** ** Strings *)

Lemma startswith_single c s :
  startswith s [c] = true <-> exists s', s = c :: s'.
Proof.
  destruct s as [|d s]; simpl.
  - split; [discriminate | intros [? ?]; discriminate].
  - rewrite andb_true_r, N.eqb_eq. split.
    + intros ->. eauto.
    + intros [s' E]. by inversion E.
Qed.

Lemma str_in_single c s : str_in [c] s = true <-> c ∈ s.
Proof.
  induction s as [|d s IH].
  - simpl. split; [discriminate | by intros ?%elem_of_nil].
  - change (str_in [c] (d :: s))
      with (startswith (d :: s) [c] || str_in [c] s).
    rewrite orb_true_iff, startswith_single, IH, elem_of_cons.
    split.
    + intros [[s' E] | ?]; [left; by inversion E | by right].
    + intros [-> | ?]; [left; eauto | by right].
Qed.

Lemma elem_of_letters l w : l ∈ letters w <-> exists c, l = [c] /\ c ∈ w.
Proof. unfold letters. rewrite list_elem_of_fmap. naive_solver. Qed.

Lemma letters_occur l w : l ∈ letters w -> str_in l w = true.
Proof. intros (c & -> & ?)%elem_of_letters. by apply str_in_single. Qed.

Lemma all_guessed_true st :
  all_guessed st = true <->
  forall c, c ∈ word st -> [c] ∈ guessed_letters st.
Proof.
  unfold all_guessed. rewrite forallb_forall. split.
  - intros Hall c Hc.
    eapply bool_decide_eq_true, Hall, list_elem_of_In, elem_of_letters; eauto.
  - intros Hall l (c & -> & Hc)%list_elem_of_In%elem_of_letters.
    apply bool_decide_eq_true; auto.
Qed.

Lemma forallb_false_elem {A} (f : A -> bool) (l : list A) :
  forallb f l = false <-> exists x, x ∈ l /\ f x = false.
Proof.
  induction l as [|a l IH]; simpl.
  - split; [discriminate | intros (x & []%elem_of_nil & _)].
  - rewrite andb_false_iff, IH. split.
    + intros [Ha | (x & Hx & Hf)]; [exists a | exists x];
        rewrite elem_of_cons; auto.
    + intros (x & [-> | Hx]%elem_of_cons & Hf); [by left | right; eauto].
Qed.

Lemma all_guessed_false st :
  all_guessed st = false <->
  exists c, c ∈ word st /\ [c] ∉ guessed_letters st.
Proof.
  unfold all_guessed. rewrite forallb_false_elem. split.
  - intros (l & (c & -> & Hc)%elem_of_letters & Hl).
    exists c. split; [done|]. by apply bool_decide_eq_false in Hl.
  - intros (c & Hc & Hnot). exists [c]. split.
    + apply elem_of_letters. eauto.
    + by apply bool_decide_eq_false.
Qed.

(** ** Scoring *)

Lemma calculate_score_name d word_length wrong_attempts :
  calculate_score (name d) word_length wrong_attempts
  = Return (computeScore_spec d word_length wrong_attempts).
Proof. destruct d; reflexivity. Qed.

(** C1. [calculate_score] on the three difficulty names is
    [max(0, word_length*10 - wrong_attempts*5)] times 1, 2 or 3, the floor
    at zero taken before the product; it gives 50 on ('easy', 5, 0), 80 on
    ('medium', 5, 2) and 0 on ('hard', 3, 10). *)
Theorem calculate_score_formula :
  (forall d word_length wrong_attempts,
     calculate_score (name d) word_length wrong_attempts
     = Return (computeScore_spec d word_length wrong_attempts)) /\
  (forall d word_length wrong_attempts,
     computeScore_spec d word_length wrong_attempts
     = Z.max 0 (word_length * 10 - wrong_attempts * 5)
       * match d with Easy => 1 | Medium => 2 | Hard => 3 end) /\
  calculate_score (lit "easy") 5 0 = Return 50 /\
  calculate_score (lit "medium") 5 2 = Return 80 /\
  calculate_score (lit "hard") 3 10 = Return 0.
Proof.
  split; [|split]; [| |by vm_compute].
  - apply calculate_score_name.
  - intros [] wl wa; reflexivity.
Qed.

Lemma calculate_score_nonneg d word_length wrong_attempts score :
  calculate_score (name d) word_length wrong_attempts = Return score ->
  0 <= score.
Proof.
  rewrite calculate_score_name. intros [= <-]. unfold computeScore_spec. destruct d; simpl; lia.
Qed.

Lemma calculate_score_unknown difficulty word_length wrong_attempts :
  difficulty_multiplier !! difficulty = None ->
  calculate_score difficulty word_length wrong_attempts = Raise KeyError.
Proof. intros E. unfold calculate_score, getitem. by rewrite E. Qed.

(** ** The picture *)

Lemma list_getitem_in_range {A} (l : list A) i :
  0 <= i < Z.of_nat (length l) ->
  exists a, list_getitem l i = Return a /\ l !! Z.to_nat i = Some a.
Proof.
  intros Hi. unfold list_getitem.
  destruct (Z.ltb_spec i 0) as [?|_]; [lia|].
  destruct (Z.leb_spec 0 i) as [_|?]; [|lia].
  destruct (Z.ltb_spec i (Z.of_nat (length l))) as [_|?]; [|lia]. simpl.
  destruct (lookup_lt_is_Some_2 l (Z.to_nat i)) as [a Ha]; [lia|].
  rewrite Ha. eauto.
Qed.

Lemma display_ok word guessed_letters wrong_attempts max_wrong :
  0 <= wrong_attempts ->
  exists screen,
    display_game_state word guessed_letters wrong_attempts max_wrong
    = Return screen.
Proof.
  intros Hw.
  destruct (list_getitem_in_range hangman_pics (hangman_stage wrong_attempts))
    as (pic & Hp & _).
  { unfold hangman_stage. change (Z.of_nat (length hangman_pics)) with 7. lia. }
  unfold display_game_state. rewrite Hp. simpl. eauto.
Qed.

(** C9. For a non-negative [wrong_attempts] the index used by
    [display_game_state] is [min(wrong_attempts, 6)], it lies inside
    [hangman_pics], and the lookup and the whole display succeed. *)
Theorem display_index_in_bounds (wrong_attempts : Z) :
  0 <= wrong_attempts ->
  hangman_stage wrong_attempts = Z.min wrong_attempts 6 /\
  0 <= hangman_stage wrong_attempts < Z.of_nat (length hangman_pics) /\
  (exists pic,
     list_getitem hangman_pics (hangman_stage wrong_attempts) = Return pic /\
     hangman_pics !! Z.to_nat (hangman_stage wrong_attempts) = Some pic) /\
  (forall word guessed_letters max_wrong, exists screen,
     display_game_state word guessed_letters wrong_attempts max_wrong
     = Return screen).
Proof.
  intros Hw.
  assert (Hs : hangman_stage wrong_attempts = Z.min wrong_attempts 6)
    by reflexivity.
  assert (Hr : 0 <= hangman_stage wrong_attempts
               < Z.of_nat (length hangman_pics)).
  { rewrite Hs. change (Z.of_nat (length hangman_pics)) with 7. lia. }
  destruct (list_getitem_in_range hangman_pics _ Hr) as (pic & Hp & Hl).
  repeat split; try tauto; eauto.
  intros w g m. by apply display_ok.
Qed.

(** On easy difficulty eight wrong guesses are allowed and the seventh
    picture is shown for the sixth, seventh and eighth. *)
Lemma display_index_in_bounds_easy :
  0 <= 8 /\ hangman_stage 8 = 6 /\
  exists pic, list_getitem hangman_pics (hangman_stage 8) = Return pic.
Proof.
  destruct (display_index_in_bounds 8) as (Hs & _ & (pic & Hp & _) & _);
    [lia|].
  split; [lia|]. split; [exact Hs|]. exists pic. exact Hp.
Defined.

Lemma display_out_of_range :
  list_getitem hangman_pics 8 = Raise IndexError.
Proof. reflexivity. Qed.

(** ** The score file *)

Lemma load_scores_absent : load_scores Absent = Return zero_scores.
Proof. reflexivity. Qed.

Lemma load_scores_garbled : load_scores Garbled = Return zero_scores.
Proof. reflexivity. Qed.

Lemma load_scores_document v : load_scores (Document v) = Return v.
Proof. reflexivity. Qed.

Lemma load_scores_denied : load_scores Denied = Raise PermissionError.
Proof. reflexivity. Qed.

Lemma load_scores_binary : load_scores Binary = Raise UnicodeDecodeError.
Proof. reflexivity. Qed.

Lemma zero_scores_lookup d :
  subscript zero_scores (name d) = Return (JInt 0).
Proof. destruct d; reflexivity. Qed.

Lemma zero_scores_all_keys : has_all_keys zero_scores.
Proof.
  eexists. split; [reflexivity|].
  repeat split; eexists; by vm_compute.
Qed.

(** C6, as stated, fails: a file holding the valid JSON text
    [{"easy": 5}] is returned as it is, without the keys 'medium' and
    'hard'. *)
Lemma load_scores_partial_document :
  ~ (forall fs, exists v, load_scores fs = Return v /\ has_all_keys v).
Proof.
  intros Hall.
  destruct (Hall (Document (JDict {[ lit "easy" := JInt 5 ]})))
    as (v & Hv & d & -> & _ & [x Hx] & _).
  injection Hv as <-. vm_compute in Hx. discriminate.
Qed.

Lemma load_scores_too_deep : load_scores TooDeep = Raise RecursionError.
Proof. reflexivity. Qed.

Lemma load_scores_oversized : load_scores Oversized = Raise ValueError.
Proof. reflexivity. Qed.

(** [load_scores] does raise: not every exception of opening and parsing
    is caught. *)
Lemma load_scores_can_raise : ~ (forall fs, exists v, load_scores fs = Return v).
Proof. intros Hall. destruct (Hall TooDeep) as [v Hv]. discriminate. Qed.

(** C6, amended.  [load_scores] catches two exceptions and no other.  When
    opening the file raises [FileNotFoundError] or [json.load] raises
    [JSONDecodeError], it returns [{'easy': 0, 'medium': 0, 'hard': 0}],
    which has the three keys, each at 0.  When [json.load] returns a
    document, it returns that document as it is, so the result has the
    three keys exactly when the document has them.  Every other exception
    of opening or parsing reaches the caller: [PermissionError],
    [UnicodeDecodeError], [RecursionError] on text nested too deep,
    [ValueError] on an integer of too many digits. *)
Theorem load_scores_cases (fs : File) :
  (open_and_load fs = Raise FileNotFoundError \/
   open_and_load fs = Raise JSONDecodeError ->
   load_scores fs = Return zero_scores) /\
  (forall v, open_and_load fs = Return v ->
     load_scores fs = Return v /\
     ((exists r, load_scores fs = Return r /\ has_all_keys r)
      <-> has_all_keys v)) /\
  (forall e, open_and_load fs = Raise e ->
     e <> FileNotFoundError -> e <> JSONDecodeError ->
     load_scores fs = Raise e) /\
  (forall d, subscript zero_scores (name d) = Return (JInt 0)) /\
  has_all_keys zero_scores /\
  load_scores Absent = Return zero_scores /\
  load_scores Garbled = Return zero_scores /\
  (forall v, load_scores (Document v) = Return v) /\
  (forall v, (exists r, load_scores (Document v) = Return r /\ has_all_keys r)
             <-> has_all_keys v) /\
  load_scores Denied = Raise PermissionError /\
  load_scores Binary = Raise UnicodeDecodeError /\
  load_scores TooDeep = Raise RecursionError /\
  load_scores Oversized = Raise ValueError.
Proof.
  assert (Hdoc : forall v,
    (exists r, load_scores (Document v) = Return r /\ has_all_keys r)
    <-> has_all_keys v).
  { intros v. rewrite load_scores_document. split.
    - by intros (r & [= <-] & Hr).
    - eauto. }
  split; [|split; [|split]].
  - unfold load_scores. by intros [-> | ->].
  - intros v Hv. unfold load_scores. rewrite Hv. split; [done|].
    split; [by intros (r & [= <-] & Hr) | eauto].
  - intros e He Hf Hj. unfold load_scores. rewrite He. by destruct e.
  - split; [apply zero_scores_lookup|]. split; [apply zero_scores_all_keys|].
    repeat split; try reflexivity; apply Hdoc.
Qed.

Lemma getitem_Return {V} (d : gmap str V) k v :
  getitem d k = Return v <-> d !! k = Some v.
Proof.
  unfold getitem. destruct (d !! k) as [x|]; split; congruence.
Qed.

Lemma stored_dict fs d difficulty :
  load_scores fs = Return (JDict d) ->
  stored fs difficulty = getitem d difficulty.
Proof. intros E. unfold stored. by rewrite E. Qed.

Lemma stored_inv fs difficulty v :
  stored fs difficulty = Return v ->
  exists d, load_scores fs = Return (JDict d) /\ d !! difficulty = Some v.
Proof.
  unfold stored. destruct (load_scores fs) as [scores|e]; [|discriminate].
  simpl. destruct scores; try discriminate.
  intros ?%getitem_Return. eauto.
Qed.

Lemma save_score_higher fs d difficulty current score :
  load_scores fs = Return (JDict d) ->
  d !! difficulty = Some (JInt current) ->
  current < score ->
  save_score difficulty score fs
  = (Return true, Document (JDict (<[difficulty := JInt score]> d))).
Proof.
  intros Hl Hd Hlt. unfold save_score. rewrite Hl. simpl.
  unfold getitem. rewrite Hd. simpl.
  destruct (Z.ltb_spec current score); [done | lia].
Qed.

Lemma save_score_not_higher fs d difficulty current score :
  load_scores fs = Return (JDict d) ->
  d !! difficulty = Some (JInt current) ->
  score <= current ->
  save_score difficulty score fs = (Return false, fs).
Proof.
  intros Hl Hd Hle. unfold save_score. rewrite Hl. simpl.
  unfold getitem. rewrite Hd. simpl.
  destruct (Z.ltb_spec current score); [lia | done].
Qed.

(** C7. When the file gives an integer [current] for [difficulty],
    [save_score] returns [True] exactly when [score > current]; it then
    leaves a file that gives [score] for [difficulty] and, for every other
    key, what the file gave before; otherwise it returns [False] and leaves
    the file as it was. *)
Theorem save_score_only_if_higher fs difficulty score current :
  stored fs difficulty = Return (JInt current) ->
  exists fs',
    save_score difficulty score fs = (Return (bool_decide (current < score)), fs') /\
    stored fs' difficulty = Return (JInt (Z.max current score)) /\
    (score <= current -> fs' = fs) /\
    (forall other, other <> difficulty -> stored fs' other = stored fs other).
Proof.
  intros (d & Hl & Hd)%stored_inv.
  destruct (decide (current < score)) as [Hlt|Hle].
  - rewrite bool_decide_eq_true_2 by done.
    eexists. split; [by eapply save_score_higher|].
    split; [|split].
    + unfold stored. simpl. unfold getitem. rewrite lookup_insert_eq.
      by rewrite Z.max_r by lia.
    + lia.
    + intros other Hne. rewrite (stored_dict fs d) by done.
      unfold stored. simpl. unfold getitem. by rewrite lookup_insert_ne.
  - rewrite bool_decide_eq_false_2 by done.
    exists fs. split; [eapply save_score_not_higher; eauto; lia|].
    split; [|split]; [|done|done].
    rewrite (stored_dict fs d) by done. unfold getitem. rewrite Hd.
    by rewrite Z.max_l by lia.
Qed.

(** Starting with no score file, saving 40 for 'easy' stores 40; saving
    30 afterwards returns [False] and 40 stays; saving 50 after that
    returns [True] and 50 is stored. *)
Lemma save_score_only_if_higher_run :
  let easy := lit "easy" in
  let fs1 := (save_score easy 40 Absent).2 in
  (save_score easy 40 Absent).1 = Return true /\
  stored fs1 easy = Return (JInt 40) /\
  exists fs2,
    save_score easy 30 fs1 = (Return false, fs2) /\
    stored fs2 easy = Return (JInt 40) /\
    exists fs3,
      save_score easy 50 fs2 = (Return true, fs3) /\
      stored fs3 easy = Return (JInt 50).
Proof.
  intros easy fs1.
  assert (H1 : stored fs1 easy = Return (JInt 40)) by reflexivity.
  split; [reflexivity|]. split; [exact H1|].
  destruct (save_score_only_if_higher fs1 easy 30 40 H1)
    as (fs2 & E2 & S2 & _).
  exists fs2. split; [exact E2|]. split; [exact S2|].
  destruct (save_score_only_if_higher fs2 easy 50 40 S2)
    as (fs3 & E3 & S3 & _).
  exists fs3. split; [exact E3 | exact S3].
Defined.

(** ** One pass through the loop body *)

Section Body.
Context {U : Unicode}.

Lemma submit_guess_malformed st guess :
  isalpha guess = false \/ length guess <> 1%nat ->
  submit_guess st guess = Again SingleLetterMsg st.
Proof.
  intros Hbad. unfold submit_guess.
  destruct (isalpha guess); simpl; [|done].
  destruct (Nat.eqb_spec (length guess) 1); simpl; [|done].
  destruct Hbad; [discriminate | contradiction].
Qed.

Lemma submit_guess_repeated st guess :
  isalpha guess = true -> length guess = 1%nat ->
  guess ∈ guessed_letters st ->
  submit_guess st guess = Again AlreadyGuessedMsg st.
Proof.
  intros Ha Hl Hin. unfold submit_guess. rewrite Ha, Hl. simpl.
  by rewrite decide_True.
Qed.

Lemma submit_guess_good st guess :
  isalpha guess = true -> length guess = 1%nat ->
  guess ∉ guessed_letters st -> str_in guess (word st) = true ->
  submit_guess st guess = Again GoodGuessMsg (add_guess guess st).
Proof.
  intros Ha Hl Hin Hw. unfold submit_guess. rewrite Ha, Hl. simpl.
  rewrite decide_False by done. by rewrite Hw.
Qed.

Lemma submit_guess_wrong st guess :
  isalpha guess = true -> length guess = 1%nat ->
  guess ∉ guessed_letters st -> str_in guess (word st) = false ->
  submit_guess st guess
  = Again WrongGuessMsg (count_wrong (add_guess guess st)).
Proof.
  intros Ha Hl Hin Hw. unfold submit_guess. rewrite Ha, Hl. simpl.
  rewrite decide_False by done. by rewrite Hw.
Qed.

Lemma submit_guess_submitted st guess :
  exists reply st',
    submit_guess st guess = Again reply st' /\ submitted st guess reply st'.
Proof.
  destruct (isalpha guess) eqn:Ha.
  2:{ eexists _, _. split; [apply submit_guess_malformed; by left|].
      constructor. by left. }
  destruct (decide (length guess = 1%nat)) as [Hl|Hl].
  2:{ eexists _, _. split; [apply submit_guess_malformed; by right|].
      constructor. by right. }
  destruct (decide (guess ∈ guessed_letters st)) as [Hin|Hin].
  { eexists _, _. split; [by apply submit_guess_repeated|]. by constructor. }
  destruct (str_in guess (word st)) eqn:Hw.
  - eexists _, _. split; [by apply submit_guess_good|]. by constructor.
  - eexists _, _. split; [by apply submit_guess_wrong|]. by constructor.
Qed.

Lemma submit_guess_inv st guess reply st' :
  submit_guess st guess = Again reply st' -> submitted st guess reply st'.
Proof.
  destruct (submit_guess_submitted st guess) as (reply0 & st0 & E & Hs).
  rewrite E. by intros [= <- <-].
Qed.

Lemma turn_abort st line r : lower line = lit "!" -> turn st line r = Abort.
Proof. intros E. unfold turn. rewrite E. by rewrite decide_True. Qed.

Lemma turn_hint st line r :
  lower line = lit "?" -> hint st = true -> hint_used st = false ->
  turn st line r
  = Again (HintMsg (get_hint r (word st) (guessed_letters st)))
          (set_hint_used st).
Proof.
  intros E Hh Hu. unfold turn. rewrite E, Hh, Hu.
  rewrite decide_False by done. by rewrite bool_decide_eq_true_2.
Qed.

Lemma turn_no_hint st line r :
  lower line = lit "?" -> hint st = false \/ hint_used st = true ->
  turn st line r = submit_guess st (lit "?").
Proof.
  intros E Hno. unfold turn. rewrite E.
  rewrite decide_False by done. rewrite bool_decide_eq_true_2 by done.
  destruct Hno as [-> | ->]; simpl; [done|]. by rewrite andb_false_r.
Qed.

Lemma turn_guess st line r :
  lower line <> lit "!" -> lower line <> lit "?" ->
  turn st line r = submit_guess st (lower line).
Proof.
  intros Hb Hq. unfold turn.
  rewrite decide_False by done. by rewrite bool_decide_eq_false_2.
Qed.

(** A pass that comes back to the head of the loop gave the hint or
    handled the lowercased line as a guess. *)
Lemma turn_inv st line r reply st' :
  turn st line r = Again reply st' ->
  (lower line = lit "?" /\ hint st = true /\ hint_used st = false /\
   reply = HintMsg (get_hint r (word st) (guessed_letters st)) /\
   st' = set_hint_used st) \/
  submitted st (lower line) reply st'.
Proof.
  unfold turn. destruct (decide (lower line = lit "!")); [discriminate|].
  destruct (bool_decide (lower line = lit "?")) eqn:Hq; simpl.
  - apply bool_decide_eq_true in Hq.
    destruct (hint st) eqn:Hh, (hint_used st) eqn:Hu; simpl;
      try (intros ?%submit_guess_inv; by right).
    intros [= <- <-]. left. by rewrite Hq.
  - intros ?%submit_guess_inv; by right.
Qed.

End Body.

(** ** What the loop body preserves *)

Section Invariants.
Context {U : Unicode}.

Lemma misses_add_good g st :
  str_in g (word st) = true -> misses (add_guess g st) = misses st.
Proof.
  intros Hw. apply set_eq. intros x. unfold misses. simpl.
  rewrite !elem_of_filter, elem_of_union, elem_of_singleton.
  split; [|tauto]. intros [Hx [-> | ?]]; [congruence | done].
Qed.

Lemma misses_add_wrong g st :
  str_in g (word st) = false ->
  misses (count_wrong (add_guess g st)) = {[ g ]} ∪ misses st.
Proof.
  intros Hw. apply set_eq. intros x. unfold misses. simpl.
  rewrite elem_of_union, !elem_of_filter, elem_of_union, elem_of_singleton.
  split; [tauto|]. intros [-> | ?]; tauto.
Qed.

Lemma misses_subseteq st : misses st ⊆ guessed_letters st.
Proof. unfold misses. intros g [_ ?]%elem_of_filter. done. Qed.

Lemma size_misses_add_wrong g st :
  g ∉ guessed_letters st -> str_in g (word st) = false ->
  size (misses (count_wrong (add_guess g st))) = S (size (misses st)).
Proof.
  intros Hin Hw. rewrite misses_add_wrong by done.
  rewrite size_union, size_singleton; [done|].
  apply disjoint_singleton_l. intros ?%misses_subseteq. done.
Qed.

(** One guess keeps the count of wrong attempts equal to the number of
    guessed letters absent from the word. *)
Lemma submitted_count st guess reply st' :
  submitted st guess reply st' ->
  wrong_attempts st = Z.of_nat (size (misses st)) ->
  wrong_attempts st' = Z.of_nat (size (misses st')).
Proof.
  intros [Hbad|Ha Hl Hin|Ha Hl Hin Hw|Ha Hl Hin Hw] Hinv; try done.
  - by rewrite misses_add_good.
  - rewrite size_misses_add_wrong by done. simpl. lia.
Qed.

Lemma turn_count st line r reply st' :
  turn st line r = Again reply st' ->
  wrong_attempts st = Z.of_nat (size (misses st)) ->
  wrong_attempts st' = Z.of_nat (size (misses st')).
Proof.
  intros [(_ & _ & _ & _ & ->) | Hs]%turn_inv; [done|].
  by eapply submitted_count.
Qed.

(** What never changes in a round, and what only grows. *)
Lemma submitted_frame st guess reply st' :
  submitted st guess reply st' ->
  word st' = word st /\ max_wrong st' = max_wrong st /\
  difficulty st' = difficulty st /\ hint st' = hint st /\
  hint_used st' = hint_used st /\
  guessed_letters st ⊆ guessed_letters st' /\
  wrong_attempts st <= wrong_attempts st'.
Proof.
  intros []; simpl; repeat split; try done; try lia; set_solver.
Qed.

Lemma turn_frame st line r reply st' :
  turn st line r = Again reply st' ->
  word st' = word st /\ max_wrong st' = max_wrong st /\
  difficulty st' = difficulty st /\ hint st' = hint st /\
  (hint_used st = true -> hint_used st' = true) /\
  guessed_letters st ⊆ guessed_letters st' /\
  wrong_attempts st <= wrong_attempts st'.
Proof.
  intros [(_ & _ & _ & _ & ->) | Hs]%turn_inv.
  - simpl. repeat split; try done; lia.
  - destruct (submitted_frame _ _ _ _ Hs) as (? & ? & ? & ? & -> & ? & ?).
    done.
Qed.

Lemma reachable_frame st0 st :
  reachable st0 st ->
  word st = word st0 /\ max_wrong st = max_wrong st0 /\
  difficulty st = difficulty st0 /\ hint st = hint st0 /\
  (hint_used st0 = true -> hint_used st = true) /\
  guessed_letters st0 ⊆ guessed_letters st /\
  wrong_attempts st0 <= wrong_attempts st.
Proof.
  induction 1 as [|st line r reply st' _ IH Ht].
  - repeat split; try done; lia.
  - destruct IH as (Hw & Hm & Hd & Hh & Hu & Hg & Hc).
    destruct (turn_frame _ _ _ _ _ Ht) as (Hw' & Hm' & Hd' & Hh' & Hu' & Hg' & Hc').
    repeat split; try congruence; try lia; [auto | set_solver].
Qed.

Lemma reachable_count st0 st :
  reachable st0 st ->
  wrong_attempts st0 = Z.of_nat (size (misses st0)) ->
  wrong_attempts st = Z.of_nat (size (misses st)).
Proof.
  induction 1 as [|st line r reply st' _ IH Ht]; [done|].
  intros Hinv. eapply turn_count; eauto.
Qed.

Lemma reachable_trans st0 st1 st2 :
  reachable st0 st1 -> reachable st1 st2 -> reachable st0 st2.
Proof.
  intros H01 H12. induction H12; [done|]. by eapply reach_turn.
Qed.

Lemma misses_none st : guessed_letters st = ∅ -> misses st = ∅.
Proof.
  intros Hg. apply set_eq. intros x. unfold misses.
  rewrite elem_of_filter, Hg, elem_of_empty. tauto.
Qed.

Lemma fresh_count st :
  fresh st -> wrong_attempts st = Z.of_nat (size (misses st)).
Proof.
  intros (Hg & Hw & _). by rewrite misses_none, size_empty.
Qed.

End Invariants.

Lemma start_fresh difficulty word st :
  start difficulty word = Return st -> fresh st.
Proof.
  unfold start. destruct (getitem difficulty_levels difficulty); [|done].
  simpl. by intros [= <-].
Qed.


(** ** The loop *)

Section Loop.
Context {U : Unicode}.

Lemma verdict_win st : all_guessed st = true -> verdict st = Win.
Proof. intros E. unfold verdict. by rewrite E. Qed.

Lemma verdict_loss st :
  all_guessed st = false -> max_wrong st <= wrong_attempts st ->
  verdict st = Loss.
Proof.
  intros E Hle. unfold verdict. rewrite E.
  destruct (Z.leb_spec (max_wrong st) (wrong_attempts st)); [done | lia].
Qed.

Lemma verdict_running st :
  all_guessed st = false -> wrong_attempts st < max_wrong st ->
  verdict st = Running.
Proof.
  intros E Hlt. unfold verdict. rewrite E.
  destruct (Z.leb_spec (max_wrong st) (wrong_attempts st)); [lia | done].
Qed.

Lemma verdict_loss_inv st :
  verdict st = Loss ->
  all_guessed st = false /\ max_wrong st <= wrong_attempts st.
Proof.
  unfold verdict. destruct (all_guessed st); [discriminate|].
  destruct (Z.leb_spec (max_wrong st) (wrong_attempts st));
    [done | discriminate].
Qed.

Lemma play_unfold st fs inputs :
  0 <= wrong_attempts st ->
  play st fs inputs =
  match verdict st with
  | Win => win st fs
  | Loss => (Lost, fs)
  | Running =>
      match inputs with
      | [] => (Waiting st, fs)
      | (line, r) :: inputs =>
          match turn st line r with
          | Abort => (Aborted, fs)
          | Again _ st => play st fs inputs
          end
      end
  end.
Proof.
  intros Hw.
  destruct (display_ok (word st) (guessed_letters st) (wrong_attempts st)
              (max_wrong st) Hw) as [screen Hs].
  destruct inputs as [|[line r] inputs]; simpl; by rewrite Hs.
Qed.

Lemma all_guessed_add_wrong st g :
  all_guessed st = false -> str_in g (word st) = false ->
  all_guessed (count_wrong (add_guess g st)) = false.
Proof.
  rewrite !all_guessed_false. intros (c & Hc & Hnot) Hg.
  exists c. split; [done|]. simpl.
  rewrite elem_of_union, elem_of_singleton. intros [E | ?]; [|done].
  apply str_in_single in Hc. congruence.
Qed.

Lemma wrong_attempts_after_wrong gs st :
  wrong_attempts (after_wrong st gs)
  = wrong_attempts st + Z.of_nat (length gs).
Proof.
  revert st. induction gs as [|g gs IH]; intros st; simpl; [lia|].
  unfold after_wrong in IH. rewrite IH. simpl. lia.
Qed.

Lemma max_wrong_after_wrong gs st :
  max_wrong (after_wrong st gs) = max_wrong st.
Proof.
  revert st. induction gs as [|g gs IH]; intros st; simpl; [done|].
  unfold after_wrong in IH. by rewrite IH.
Qed.

(** A run of distinct wrong letters, none of them guessed before. *)
Lemma play_wrong_run inputs : forall st fs,
  0 <= wrong_attempts st -> all_guessed st = false ->
  Forall (wrong_letter (word st)) (lowered inputs) ->
  NoDup (lowered inputs) ->
  (forall g, g ∈ lowered inputs -> g ∉ guessed_letters st) ->
  (wrong_attempts st + Z.of_nat (length inputs) < max_wrong st ->
   play st fs inputs = (Waiting (after_wrong st (lowered inputs)), fs) /\
   verdict (after_wrong st (lowered inputs)) = Running) /\
  (wrong_attempts st + Z.of_nat (length inputs) = max_wrong st ->
   play st fs inputs = (Lost, fs)).
Proof.
  induction inputs as [|[line r] inputs IH];
    intros st fs Hw Hall Hwrong Hnd Hnew; rewrite play_unfold by done.
  - simpl. split; intros Hlen.
    + rewrite verdict_running by (done || lia). done.
    + rewrite verdict_loss by (done || lia). done.
  - apply Forall_cons in Hwrong as [(Hb & Hq & Ha & Hl & Hin) Hrest].
    apply NoDup_cons in Hnd as [Hfirst Hnd]. simpl in *.
    assert (Hg : lower line ∉ guessed_letters st).
    { apply Hnew. unfold lowered. simpl. apply elem_of_cons. by left. }
    assert (Ht : turn st line r
                 = Again WrongGuessMsg (count_wrong (add_guess (lower line) st))).
    { rewrite turn_guess by done. by apply submit_guess_wrong. }
    destruct (IH (count_wrong (add_guess (lower line) st)) fs) as [IH1 IH2];
      simpl; try done.
    + lia.
    + by apply all_guessed_add_wrong.
    + intros g Hgin. rewrite elem_of_union, elem_of_singleton.
      intros [-> | Hold]; [done|].
      eapply Hnew; [|done]. unfold lowered. simpl. apply elem_of_cons. by right.
    + split; intros Hlen.
      * rewrite verdict_running by (done || lia). rewrite Ht.
        apply IH1. simpl. lia.
      * rewrite verdict_running by (done || lia). rewrite Ht.
        apply IH2. simpl. lia.
Qed.

(** [Lost] comes only from a state where the count has reached the cap. *)
Lemma play_lost_inv inputs : forall st fs fs',
  play st fs inputs = (Lost, fs') ->
  exists st', reachable st st' /\ verdict st' = Loss /\
              max_wrong st' <= wrong_attempts st'.
Proof.
  induction inputs as [|[line r] inputs IH]; intros st fs fs'; simpl.
  - destruct (display_game_state _ _ _ _); [|discriminate].
    destruct (verdict st) eqn:Hv; try discriminate.
    + unfold win. destruct (calculate_score _ _ _); [|discriminate].
      destruct (save_score _ _ _) as [[] ?]; discriminate.
    + intros _. exists st. split; [constructor|].
      split; [done|]. by apply verdict_loss_inv.
  - destruct (display_game_state _ _ _ _); [|discriminate].
    destruct (verdict st) eqn:Hv.
    + unfold win. destruct (calculate_score _ _ _); [|discriminate].
      destruct (save_score _ _ _) as [[] ?]; discriminate.
    + intros _. exists st. split; [constructor|].
      split; [done|]. by apply verdict_loss_inv.
    + destruct (turn st line r) as [|reply st1] eqn:Ht; [discriminate|].
      intros (st' & Hr & Hl)%IH. exists st'. split; [|done].
      eapply reachable_trans; [|exact Hr].
      eapply reach_turn; [constructor | exact Ht].
Qed.

(** A round left waiting for input is one the loop body can leave. *)
Lemma play_waiting_reachable inputs : forall st fs st' fs',
  play st fs inputs = (Waiting st', fs') -> reachable st st'.
Proof.
  induction inputs as [|[line r] inputs IH]; intros st fs st' fs'; simpl.
  - destruct (display_game_state _ _ _ _); [|discriminate].
    destruct (verdict st) eqn:Hv; try discriminate.
    + unfold win. destruct (calculate_score _ _ _); [|discriminate].
      destruct (save_score _ _ _) as [[] ?]; discriminate.
    + intros [= <- _]. constructor.
  - destruct (display_game_state _ _ _ _); [|discriminate].
    destruct (verdict st) eqn:Hv; try discriminate.
    + unfold win. destruct (calculate_score _ _ _); [|discriminate].
      destruct (save_score _ _ _) as [[] ?]; discriminate.
    + destruct (turn st line r) as [|reply st1] eqn:Ht; [discriminate|].
      intros Hr%IH. eapply reachable_trans; [|exact Hr].
      eapply reach_turn; [constructor | exact Ht].
Qed.

End Loop.

Lemma verdict_running_inv st :
  verdict st = Running ->
  all_guessed st = false /\ wrong_attempts st < max_wrong st.
Proof.
  unfold verdict. destruct (all_guessed st); [discriminate|].
  destruct (Z.leb_spec (max_wrong st) (wrong_attempts st));
    [discriminate | done].
Qed.

Lemma turn_wrong_step {U : Unicode} st line r reply st' :
  turn st line r = Again reply st' ->
  wrong_attempts st' <= wrong_attempts st + 1.
Proof.
  intros [(_ & _ & _ & _ & ->) | Hs]%turn_inv; [simpl; lia|].
  destruct Hs; simpl; lia.
Qed.

Lemma win_not_waiting st fs st' fs' : win st fs <> (Waiting st', fs').
Proof.
  unfold win. destruct (calculate_score _ _ _); [|discriminate].
  destruct (save_score _ _ _) as [[] ?]; discriminate.
Qed.

(** A round that waits after the lines [before] has not touched the score
    file, is running, and goes on with further lines from where it waits. *)
Lemma play_waiting_app {U : Unicode} before : forall st0 fs st fs',
  play st0 fs before = (Waiting st, fs') ->
  fs' = fs /\ verdict st = Running /\
  forall rest, play st0 fs (before ++ rest) = play st fs rest.
Proof.
  induction before as [|[line r] before IH]; intros st0 fs st fs'.
  - simpl. destruct (display_game_state _ _ _ _) eqn:Hd; [|discriminate].
    destruct (verdict st0) eqn:Hv; try discriminate.
    + by intros ?%win_not_waiting.
    + intros [= <- <-]. done.
  - simpl. destruct (display_game_state _ _ _ _) eqn:Hd; [|discriminate].
    destruct (verdict st0) eqn:Hv; try discriminate.
    + by intros ?%win_not_waiting.
    + destruct (turn st0 line r) as [|reply st1] eqn:Ht; [discriminate|].
      intros Hp. apply IH in Hp. done.
Qed.

(** C2. In every round state that the loop body can leave, starting from
    no guessed letter and no wrong attempt, [wrong_attempts] is the number
    of guessed letters that do not occur in the word. *)
Theorem wrong_attempts_counts_misses {U : Unicode} (st0 st : Round) :
  guessed_letters st0 = ∅ -> wrong_attempts st0 = 0 ->
  reachable st0 st ->
  wrong_attempts st = Z.of_nat (size (misses st)).
Proof.
  intros Hg Hw Hr. eapply reachable_count; [done|].
  by rewrite misses_none, size_empty.
Qed.

Lemma wrong_attempts_counts_misses_mango :
  let st := count_wrong (add_guess (lit "z") mango_hard) in
  reachable (U:=ucd) mango_hard st /\
  wrong_attempts st = Z.of_nat (size (misses st)).
Proof.
  assert (Hr : reachable (U:=ucd) mango_hard
                 (count_wrong (add_guess (lit "z") mango_hard))).
  { eapply (reach_turn (U:=ucd) _ _ (lit "Z") 0%nat WrongGuessMsg);
      [apply reach_refl | reflexivity]. }
  split; [exact Hr|].
  exact (wrong_attempts_counts_misses (U:=ucd) mango_hard _ eq_refl eq_refl Hr).
Defined.

(** C3. At any point of a round where the game waits for a line, when
    the lines typed next are distinct wrong letters, none guessed before,
    that bring the count of wrong attempts to [max_wrong]: after each proper
    prefix of them the round is still running, with one more wrong attempt
    for each line typed and fewer than [max_wrong]; after the last one it
    is lost.  From the start of a round these are [max_wrong] lines.  In
    any run, [Lost] is reached only in a state where
    [wrong_attempts >= max_wrong]. *)
Theorem lost_exactly_at_max_wrong {U : Unicode} (st0 st : Round) (fs : File)
    (before run : list (str * nat)) :
  0 <= wrong_attempts st0 ->
  play st0 fs before = (Waiting st, fs) ->
  Forall (wrong_letter (word st)) (lowered run) ->
  NoDup (lowered run) ->
  (forall g, g ∈ lowered run -> g ∉ guessed_letters st) ->
  wrong_attempts st + Z.of_nat (length run) = max_wrong st ->
  (forall k, (k < length run)%nat ->
     exists st', play st0 fs (before ++ take k run) = (Waiting st', fs) /\
                 wrong_attempts st' = wrong_attempts st + Z.of_nat k /\
                 wrong_attempts st' < max_wrong st' /\
                 verdict st' = Running) /\
  play st0 fs (before ++ run) = (Lost, fs) /\
  (forall st1 fs1 fs2 ins,
     play st1 fs1 ins = (Lost, fs2) ->
     exists st', reachable st1 st' /\ verdict st' = Loss /\
                 max_wrong st' <= wrong_attempts st') /\
  (forall st1, wrong_attempts st1 < max_wrong st1 -> verdict st1 <> Loss).
Proof.
  intros Hw0 Hbefore Hwrong Hnd Hnew Hlen.
  destruct (play_waiting_app _ _ _ _ _ Hbefore) as (_ & Hrun & Happ).
  destruct (verdict_running_inv _ Hrun) as [Hall Hlt].
  assert (Hw : 0 <= wrong_attempts st).
  { apply play_waiting_reachable in Hbefore.
    destruct (reachable_frame _ _ Hbefore) as (_ & _ & _ & _ & _ & _ & Hge).
    lia. }
  split; [|split; [|split]].
  - intros k Hk. rewrite Happ.
    destruct (play_wrong_run (take k run) st fs) as [Hprefix _].
    + done.
    + done.
    + unfold lowered in *. rewrite fmap_take. by apply Forall_take.
    + unfold lowered in *. rewrite fmap_take.
      eapply sublist_NoDup; [done | apply sublist_take].
    + intros g Hg. apply Hnew. unfold lowered in *.
      rewrite fmap_take in Hg. by eapply subseteq_take.
    + rewrite length_take_le in Hprefix by lia.
      destruct Hprefix as [Hp Hv]; [lia|].
      eexists. split; [exact Hp|].
      rewrite wrong_attempts_after_wrong. unfold lowered.
      rewrite length_fmap, length_take_le by lia.
      rewrite max_wrong_after_wrong. repeat split; [lia | done].
  - rewrite Happ.
    destruct (play_wrong_run run st fs) as [_ Hlost]; try done.
    apply Hlost. lia.
  - intros st1 fs1 fs2 ins. apply play_lost_inv.
  - intros st1 Hlt1 [_ Hle]%verdict_loss_inv. lia.
Qed.

(** On 'mango' at hard level, after the good guess m, the lines z, X, q, w
    lose the round at the fourth of them and not at the third. *)
Lemma lost_exactly_at_max_wrong_mango :
  let before := [(lit "m", 0%nat)] in
  let run := [(lit "z", 0%nat); (lit "X", 0%nat);
              (lit "q", 0%nat); (lit "w", 0%nat)] in
  play (U:=ucd) mango_hard Absent (before ++ run) = (Lost, Absent) /\
  exists st, play (U:=ucd) mango_hard Absent (before ++ take 3 run)
             = (Waiting st, Absent) /\
             wrong_attempts st = 3.
Proof.
  intros before run.
  destruct (lost_exactly_at_max_wrong (U:=ucd) mango_hard
              (add_guess (lit "m") mango_hard) Absent before run)
    as (Hprefix & Hlost & _).
  - simpl. lia.
  - reflexivity.
  - repeat (apply Forall_cons; split); [..|apply Forall_nil];
      repeat split; discriminate.
  - apply (bool_decide_unpack _). reflexivity.
  - intros g Hg. apply (bool_decide_unpack _).
    repeat (apply elem_of_cons in Hg as [-> | Hg]; [reflexivity|]).
    by apply elem_of_nil in Hg.
  - reflexivity.
  - split; [exact Hlost|].
    destruct (Hprefix 3%nat) as (st & Hp & Hw & _); [simpl; lia|].
    exists st. split; [exact Hp | exact Hw].
Defined.

(** From the start of the same round the four lines alone lose it. *)
Example lost_from_the_start :
  play (U:=ucd) mango_hard Absent
    [(lit "z", 0%nat); (lit "X", 0%nat); (lit "q", 0%nat); (lit "w", 0%nat)]
  = (Lost, Absent).
Proof. reflexivity. Qed.

(** ** Rejected guesses *)

(** C4. [submit_guess] answers a guess that is not exactly one alphabetic
    character, or that is already among the guessed letters, with one of
    the two [InvalidInput] messages and leaves the round as it was; so
    does the loop body for a line that lowercases to such a guess and is
    not one of the two commands. *)
Theorem submit_guess_rejects {U : Unicode} (st : Round) (guess : str) :
  isalpha guess = false \/ length guess <> 1%nat \/
    guess ∈ guessed_letters st ->
  (exists reply,
     submit_guess st guess = Again reply st /\ invalid_input reply) /\
  (forall line r,
     lower line = guess -> guess <> lit "!" -> guess <> lit "?" ->
     exists reply,
       turn st line r = Again reply st /\ invalid_input reply).
Proof.
  intros Hbad.
  assert (Hsub : exists reply,
             submit_guess st guess = Again reply st /\ invalid_input reply).
  { destruct (isalpha guess) eqn:Ha.
    2:{ exists SingleLetterMsg.
        split; [apply submit_guess_malformed; by left | by left]. }
    destruct (decide (length guess = 1%nat)) as [Hl|Hl].
    2:{ exists SingleLetterMsg.
        split; [apply submit_guess_malformed; by right | by left]. }
    destruct Hbad as [? | [? | Hin]]; [discriminate | done |].
    exists AlreadyGuessedMsg.
    split; [by apply submit_guess_repeated | by right]. }
  split; [exact Hsub|].
  intros line r <- Hb Hq. by rewrite turn_guess.
Qed.

(** The empty line, a line of several characters and a line that is one
    non-alphabetic character are all turned down. *)
Lemma submit_guess_malformed_cases {U : Unicode} (st : Round) :
  submit_guess st [] = Again SingleLetterMsg st /\
  (forall c d s, submit_guess st (c :: d :: s) = Again SingleLetterMsg st) /\
  (forall c, isalpha [c] = false ->
             submit_guess st [c] = Again SingleLetterMsg st).
Proof.
  split; [|split].
  - apply submit_guess_malformed. by right.
  - intros c d s. apply submit_guess_malformed. by right.
  - intros c Hc. apply submit_guess_malformed. by left.
Qed.

(** After 'm' is guessed on 'mango', the lines 'm' and 'M' are rejected
    and nothing changes. *)
Lemma submit_guess_rejects_mango :
  let st := add_guess (lit "m") mango_hard in
  lit "m" ∈ guessed_letters st /\
  (exists reply, submit_guess (U:=ucd) st (lit "m") = Again reply st /\
                 invalid_input reply) /\
  (exists reply, turn (U:=ucd) st (lit "M") 0 = Again reply st /\
                 invalid_input reply).
Proof.
  intros st.
  assert (Hin : lit "m" ∈ guessed_letters st).
  { simpl. apply elem_of_union. left. by apply elem_of_singleton. }
  destruct (submit_guess_rejects (U:=ucd) st (lit "m")) as [Hs Ht].
  { right. right. exact Hin. }
  split; [exact Hin|]. split; [exact Hs|].
  apply Ht; [reflexivity | discriminate | discriminate].
Defined.

(** ** The hint *)

Lemma random_choice_some {A} (r : nat) (seq : list A) :
  seq <> [] -> exists a, random_choice r seq = Some a /\ a ∈ seq.
Proof.
  intros Hne. unfold random_choice.
  destruct (lookup_lt_is_Some_2 seq (r `mod` length seq)%nat) as [a Ha].
  - apply Nat.mod_upper_bound. by destruct seq.
  - exists a. split; [done|]. by eapply list_elem_of_lookup_2.
Qed.

Lemma get_hint_some r word guessed l :
  get_hint r word guessed = Some l -> l ∈ letters word /\ l ∉ guessed.
Proof.
  unfold get_hint.
  destruct (filter _ (letters word)) as [|x not_guessed] eqn:E; [done|].
  intros Hc.
  destruct (random_choice_some r (x :: not_guessed)) as (a & Ha & Hin);
    [done|].
  rewrite Hc in Ha. injection Ha as <-.
  rewrite <- E in Hin. apply list_elem_of_filter in Hin. tauto.
Qed.

Lemma get_hint_none r word guessed :
  get_hint r word guessed = None <->
  forall c, c ∈ word -> [c] ∈ guessed.
Proof.
  unfold get_hint.
  destruct (filter _ (letters word)) as [|x not_guessed] eqn:E.
  - split; [intros _ | done]. intros c Hc.
    destruct (decide ([c] ∈ guessed)) as [|Hn]; [done|].
    assert (Hin : [c] ∈ filter (fun letter => letter ∉ guessed) (letters word)).
    { apply list_elem_of_filter. split; [done|].
      apply elem_of_letters. eauto. }
    rewrite E in Hin. by apply elem_of_nil in Hin.
  - destruct (random_choice_some r (x :: not_guessed)) as (a & Ha & Hin);
      [done|].
    rewrite Ha. split; [done|]. intros Hall.
    assert (Hx : x ∈ filter (fun letter => letter ∉ guessed) (letters word)).
    { rewrite E. apply elem_of_cons. by left. }
    apply list_elem_of_filter in Hx as [Hn (c & -> & Hc)%elem_of_letters].
    by apply Hall in Hc.
Qed.

(** C5. A hint request in a round that allows hints and has not used its
    hint gives a letter of the word that is not among the guessed letters,
    or [None] when every letter of the word is guessed, and sets
    [hint_used] either way; whatever happens next in the round, a later
    hint request gives no hint and changes nothing. *)
Theorem hint_given_once {U : Unicode} (st : Round) (line : str) (r : nat) :
  lower line = lit "?" -> isalpha (lit "?") = false ->
  hint st = true -> hint_used st = false ->
  let hint_letter := get_hint r (word st) (guessed_letters st) in
  turn st line r = Again (HintMsg hint_letter) (set_hint_used st) /\
  hint_used (set_hint_used st) = true /\
  (forall l, hint_letter = Some l ->
             l ∈ letters (word st) /\ l ∉ guessed_letters st) /\
  (hint_letter = None <->
   forall c, c ∈ word st -> [c] ∈ guessed_letters st) /\
  (forall st', reachable (set_hint_used st) st' ->
     forall line' r', lower line' = lit "?" ->
       turn st' line' r' = Again SingleLetterMsg st').
Proof.
  intros Hq Hna Hh Hu hint_letter.
  split; [by apply turn_hint|]. split; [done|].
  split; [intros l; apply get_hint_some|].
  split; [apply get_hint_none|].
  intros st' Hr line' r' Hq'.
  destruct (reachable_frame _ _ Hr) as (_ & _ & _ & _ & Hused & _).
  rewrite turn_no_hint by (done || right; by apply Hused).
  apply submit_guess_malformed. by left.
Qed.

(** On 'kiwi' at easy level, with draw 2: the hint is 'w', and a second
    '?' straight after is turned down. *)
Lemma hint_given_once_kiwi :
  turn (U:=ucd) kiwi_easy (lit "?") 2
  = Again (HintMsg (Some (lit "w"))) (set_hint_used kiwi_easy) /\
  turn (U:=ucd) (set_hint_used kiwi_easy) (lit "?") 0
  = Again SingleLetterMsg (set_hint_used kiwi_easy).
Proof.
  destruct (hint_given_once (U:=ucd) kiwi_easy (lit "?") 2)
    as (Hfirst & _ & _ & _ & Hsecond);
    [reflexivity | reflexivity | reflexivity | reflexivity |].
  split; [exact Hfirst|].
  apply Hsecond; [apply reach_refl | reflexivity].
Defined.

(** ** Win before loss *)

(** C8. In a round state where every letter of the word is guessed, the
    check at the head of the loop says [Win] whatever the count of wrong
    attempts is, and the loop ends in the winning branch. *)
Theorem win_checked_before_loss {U : Unicode} (st : Round) (fs : File)
    (inputs : list (str * nat)) :
  (forall c, c ∈ word st -> [c] ∈ guessed_letters st) ->
  0 <= wrong_attempts st ->
  verdict st = Win /\
  play st fs inputs = win st fs /\
  exists tally, (play st fs inputs).1 = Won tally.
Proof.
  intros Hall%all_guessed_true Hw.
  assert (Hv : verdict st = Win) by by apply verdict_win.
  split; [done|]. rewrite play_unfold, Hv by done. split; [done|].
  unfold win. destruct (calculate_score _ _ _); [|by eexists].
  destruct (save_score _ _ _) as [[] ?]; by eexists.
Qed.

(** With 'h' and 'i' guessed and four wrong attempts out of four, the
    round on 'hi' is won, with score 0. *)
Lemma win_checked_before_loss_hi :
  max_wrong hi_both <= wrong_attempts hi_both /\
  verdict hi_both = Win /\
  play (U:=ucd) hi_both Absent [] = (Won (Return (0, false)), Absent).
Proof.
  destruct (win_checked_before_loss (U:=ucd) hi_both Absent [])
    as (Hv & Hp & _).
  - intros c Hc. simpl.
    apply elem_of_cons in Hc as [-> | Hc];
      [|apply elem_of_cons in Hc as [-> | Hc]; [|by apply elem_of_nil in Hc]];
      set_solver.
  - simpl. lia.
  - split; [simpl; lia|]. split; [exact Hv|]. rewrite Hp. reflexivity.
Defined.

(** ** Lowercasing *)

Lemma ucd_capital (c : N) :
  (65 <= c <= 90)%N ->
  @lower ucd [c] = [(c + 32)%N] /\
  @lower ucd [(c + 32)%N] = [(c + 32)%N] /\
  @isalpha ucd [c] = true /\
  @isalpha ucd [(c + 32)%N] = true.
Proof.
  intros Hc. simpl. unfold ucd_lowercase, ucd_alphabetic, between.
  repeat match goal with
         | |- context [(?a <=? ?b)%N] => destruct (N.leb_spec a b); try lia
         | |- context [(?a =? ?b)%N] => destruct (N.eqb_spec a b); try lia
         end; simpl; done.
Qed.

(** C10, as stated, fails: capital I with dot above (U+0130) is one
    alphabetic character, its lowercase form is 'i' followed by U+0307,
    two characters, and the line is answered with "Please enter a single
    letter."; nothing joins the guessed letters. *)
Lemma capital_dotted_i_rejected : ~ single_letter_accepted ucd.
Proof.
  intros Hacc.
  destruct (Hacc mango_hard 304%N 0%nat) as (reply & st' & Ht & Hg).
  - reflexivity.
  - simpl. apply not_elem_of_empty.
  - change (turn (U:=ucd) mango_hard [304%N] 0)
      with (Again SingleLetterMsg mango_hard) in Ht.
    injection Ht as _ <-. simpl in Hg.
    assert (Hin : [105; 775]%N ∈ ({[ [105; 775]%N ]} ∪ ∅ : gset str)).
    { apply elem_of_union. left. by apply elem_of_singleton. }
    rewrite <- Hg in Hin. by apply not_elem_of_empty in Hin.
Qed.

Lemma capital_dotted_i_facts :
  @isalpha ucd [304%N] = true /\
  @lower ucd [304%N] = [105; 775]%N /\
  turn (U:=ucd) mango_hard [304%N] 0 = Again SingleLetterMsg mango_hard.
Proof. repeat split. Qed.

(** C10, amended.  The line typed is lowercased before anything else is
    done with it.  When its lowercase form [guess] is one alphabetic
    character, is its own lowercase form and is not one of the two
    commands, the line is handled exactly as [guess] is; if [guess] is not
    yet guessed it is accepted and joins the guessed letters, and from
    then on both the line and [guess] are answered with "You've already
    guessed that letter.". *)
Theorem lowercased_before_processing {U : Unicode} (st : Round)
    (line guess : str) (r : nat) :
  lower line = guess -> lower guess = guess ->
  guess <> lit "!" -> guess <> lit "?" ->
  isalpha guess = true -> length guess = 1%nat ->
  guess ∉ guessed_letters st ->
  turn st line r = turn st guess r /\
  exists reply st',
    turn st line r = Again reply st' /\
    (reply = GoodGuessMsg \/ reply = WrongGuessMsg) /\
    guessed_letters st' = {[ guess ]} ∪ guessed_letters st /\
    forall r', turn st' line r' = Again AlreadyGuessedMsg st' /\
               turn st' guess r' = Again AlreadyGuessedMsg st'.
Proof.
  intros Hline Hfix Hb Hq Ha Hl Hnew.
  assert (Hsame : forall st1 r1, turn st1 line r1 = turn st1 guess r1).
  { intros st1 r1. unfold turn. by rewrite Hline, Hfix. }
  split; [apply Hsame|].
  assert (Hrepeat : forall st1 r1, guess ∈ guessed_letters st1 ->
            turn st1 guess r1 = Again AlreadyGuessedMsg st1).
  { intros st1 r1 Hin. rewrite turn_guess by (by rewrite Hfix).
    rewrite Hfix. by apply submit_guess_repeated. }
  rewrite Hsame, turn_guess by (by rewrite Hfix). rewrite Hfix.
  destruct (str_in guess (word st)) eqn:Hw.
  - eexists _, _. split; [by apply submit_guess_good|].
    split; [by left|]. split; [done|].
    intros r'. rewrite Hsame. split; apply Hrepeat; simpl;
      apply elem_of_union; left; by apply elem_of_singleton.
  - eexists _, _. split; [by apply submit_guess_wrong|].
    split; [by right|]. split; [done|].
    intros r'. rewrite Hsame. split; apply Hrepeat; simpl;
      apply elem_of_union; left; by apply elem_of_singleton.
Qed.

(** Guessing 'A' on 'mango' adds 'a'; after that 'a' and 'A' are both
    turned down as already guessed. *)
Lemma lowercased_before_processing_mango :
  let st' := add_guess (lit "a") mango_hard in
  turn (U:=ucd) mango_hard (lit "A") 0 = Again GoodGuessMsg st' /\
  lit "a" ∈ guessed_letters st' /\
  turn (U:=ucd) st' (lit "a") 0 = Again AlreadyGuessedMsg st' /\
  turn (U:=ucd) st' (lit "A") 0 = Again AlreadyGuessedMsg st'.
Proof.
  intros st'.
  destruct (lowercased_before_processing (U:=ucd) mango_hard
              (lit "A") (lit "a") 0)
    as (_ & reply & st1 & Ht & _ & Hg & Hagain);
    [reflexivity | reflexivity | discriminate | discriminate
    | reflexivity | reflexivity | apply not_elem_of_empty |].
  change (turn (U:=ucd) mango_hard (lit "A") 0)
    with (Again GoodGuessMsg st') in Ht.
  injection Ht as <- <-.
  split; [reflexivity|]. split.
  - rewrite Hg. apply elem_of_union. left. by apply elem_of_singleton.
  - destruct (Hagain 0%nat) as [HA Ha]. split; [exact Ha | exact HA].
Defined.

(** ** A round from beginning to end *)

Example start_mango : start (lit "hard") (lit "mango") = Return mango_hard.
Proof. reflexivity. Qed.

Example start_kiwi : start (lit "easy") (lit "kiwi") = Return kiwi_easy.
Proof. reflexivity. Qed.

Example start_unknown : start (lit "expert") (lit "kiwi") = Raise KeyError.
Proof. reflexivity. Qed.

(** 'mango' on hard, guessed m, a, n, g, o with no score file: won with
    150 points, a new high score, and the file holds 150 for 'hard'. *)
Example mango_won :
  let '(outcome, fs) :=
    play_hangman (U:=ucd) (lit "hard") (lit "mango") Absent
      [(lit "m", 0%nat); (lit "a", 0%nat); (lit "n", 0%nat);
       (lit "g", 0%nat); (lit "o", 0%nat)] in
  outcome = Won (Return (150, true)) /\
  stored fs (lit "hard") = Return (JInt 150) /\
  stored fs (lit "easy") = Return (JInt 0).
Proof. by vm_compute. Qed.

(** The same round given up with '!' after two guesses. *)
Example mango_aborted :
  (play_hangman (U:=ucd) (lit "hard") (lit "mango") Absent
     [(lit "m", 0%nat); (lit "z", 0%nat); (lit "!", 0%nat)]).1 = Aborted.
Proof. by vm_compute. Qed.

(** A score file that holds [{"easy": 5}]: a win on hard cannot be saved. *)
Example mango_won_partial_file :
  (play_hangman (U:=ucd) (lit "hard") (lit "mango")
     (Document (JDict {[ lit "easy" := JInt 5 ]}))
     [(lit "m", 0%nat); (lit "a", 0%nat); (lit "n", 0%nat);
      (lit "g", 0%nat); (lit "o", 0%nat)]).1
  = Won (Raise KeyError).
Proof. by vm_compute. Qed.

(** * Further properties of the round *)

(** X1. Within a round the word, the cap, the difficulty and the hint
    setting never change; a guessed letter stays guessed, the count of
    wrong attempts never goes down, and a used hint stays used. *)
Theorem round_only_grows {U : Unicode} (st0 st : Round) :
  reachable st0 st ->
  word st = word st0 /\ max_wrong st = max_wrong st0 /\
  difficulty st = difficulty st0 /\ hint st = hint st0 /\
  (hint_used st0 = true -> hint_used st = true) /\
  guessed_letters st0 ⊆ guessed_letters st /\
  wrong_attempts st0 <= wrong_attempts st.
Proof. apply reachable_frame. Qed.

Lemma round_only_grows_mango :
  let st := count_wrong (add_guess (lit "z") (add_guess (lit "m") mango_hard)) in
  reachable (U:=ucd) mango_hard st /\
  word st = lit "mango" /\ wrong_attempts mango_hard <= wrong_attempts st.
Proof.
  intros st.
  assert (Hr : reachable (U:=ucd) mango_hard st).
  { eapply (reach_turn (U:=ucd) mango_hard (add_guess (lit "m") mango_hard)
              (lit "Z") 0%nat WrongGuessMsg); [|reflexivity].
    eapply (reach_turn (U:=ucd) _ _ (lit "m") 0%nat GoodGuessMsg);
      [apply reach_refl | reflexivity]. }
  destruct (round_only_grows (U:=ucd) mango_hard st Hr)
    as (Hw & _ & _ & _ & _ & _ & Hc).
  split; [exact Hr|]. split; [exact Hw | exact Hc].
Defined.

Lemma submitted_letters {U : Unicode} st guess reply st' :
  submitted st guess reply st' ->
  (forall g, g ∈ guessed_letters st -> length g = 1%nat /\ isalpha g = true) ->
  forall g, g ∈ guessed_letters st' -> length g = 1%nat /\ isalpha g = true.
Proof.
  intros [Hbad|Ha Hl Hin|Ha Hl Hin Hw|Ha Hl Hin Hw] Hold g; simpl; auto;
    rewrite elem_of_union, elem_of_singleton; intros [-> | ?]; auto.
Qed.

(** X2. Every guessed letter of a round that began with none is a string
    of one character that [isalpha] accepts: nothing else gets past the
    validation. *)
Theorem guessed_letters_are_letters {U : Unicode} (st0 st : Round) :
  guessed_letters st0 = ∅ -> reachable st0 st ->
  forall g, g ∈ guessed_letters st -> length g = 1%nat /\ isalpha g = true.
Proof.
  intros Hg Hr. induction Hr as [|st line r reply st' _ IH Ht].
  - intros g. rewrite Hg. by intros ?%not_elem_of_empty.
  - apply turn_inv in Ht as [(_ & _ & _ & _ & ->) | Hs]; [exact IH|].
    by eapply submitted_letters.
Qed.

Lemma guessed_letters_are_letters_mango :
  let st := count_wrong (add_guess (lit "z") mango_hard) in
  lit "z" ∈ guessed_letters st /\
  length (lit "z") = 1%nat /\ @isalpha ucd (lit "z") = true.
Proof.
  intros st.
  assert (Hin : lit "z" ∈ guessed_letters st).
  { simpl. apply elem_of_union. left. by apply elem_of_singleton. }
  split; [exact Hin|].
  apply (guessed_letters_are_letters (U:=ucd) mango_hard st eq_refl);
    [|exact Hin].
  eapply (reach_turn (U:=ucd) _ _ (lit "Z") 0%nat WrongGuessMsg);
    [apply reach_refl | reflexivity].
Defined.

(** X3. Whenever the game is asking for a line, the count of wrong
    attempts is below the cap, so at least one attempt remains; it started
    at zero or more and stays so. *)
Theorem waiting_has_attempts_left {U : Unicode} (inputs : list (str * nat)) :
  forall st0 fs st fs',
  0 <= wrong_attempts st0 ->
  play st0 fs inputs = (Waiting st, fs') ->
  0 <= wrong_attempts st < max_wrong st /\ max_wrong st = max_wrong st0.
Proof.
  induction inputs as [|[line r] inputs IH]; intros st0 fs st fs' Hw;
    rewrite play_unfold by done.
  - destruct (verdict st0) eqn:Hv; try discriminate.
    + by intros ?%win_not_waiting.
    + intros [= <- _]. apply verdict_running_inv in Hv. lia.
  - destruct (verdict st0) eqn:Hv; try discriminate.
    + by intros ?%win_not_waiting.
    + destruct (turn st0 line r) as [|reply st1] eqn:Ht; [discriminate|].
      intros Hp. destruct (turn_frame _ _ _ _ _ Ht) as (_ & Hm & _ & _ & _ & _ & Hge).
      destruct (IH st1 fs st fs') as [Hr Hmax]; [lia | done |].
      split; [done | congruence].
Qed.

Lemma waiting_has_attempts_left_mango :
  let inputs := [(lit "z", 0%nat); (lit "x", 0%nat); (lit "q", 0%nat)] in
  exists st, play (U:=ucd) mango_hard Absent inputs = (Waiting st, Absent) /\
             0 <= wrong_attempts st < max_wrong st.
Proof.
  intros inputs. eexists. split; [reflexivity|].
  eapply (waiting_has_attempts_left (U:=ucd) inputs mango_hard Absent _ Absent);
    [simpl; lia | reflexivity].
Defined.




(** X5. While the round is running a hint is never [None]: it is a letter
    of the word that has not been guessed, and submitting that letter
    next is a good guess, provided [isalpha] accepts it. *)
Theorem hint_is_a_good_guess {U : Unicode} (st : Round) (r : nat) :
  verdict st = Running ->
  exists l,
    get_hint r (word st) (guessed_letters st) = Some l /\
    l ∈ letters (word st) /\ (l ∉ guessed_letters st) /\
    (isalpha l = true ->
     submit_guess (set_hint_used st) l
     = Again GoodGuessMsg (add_guess l (set_hint_used st))).
Proof.
  intros [Hall _]%verdict_running_inv.
  destruct (get_hint r (word st) (guessed_letters st)) as [l|] eqn:Hh.
  - destruct (get_hint_some _ _ _ _ Hh) as [Hin Hnew].
    exists l. repeat split; try done. intros Ha.
    apply submit_guess_good; simpl; try done.
    + apply elem_of_letters in Hin as (c & -> & _). done.
    + by apply letters_occur.
  - pose proof (proj1 (get_hint_none _ _ _) Hh) as Hn.
    apply all_guessed_true in Hn. congruence.
Qed.

Lemma hint_is_a_good_guess_kiwi :
  verdict kiwi_easy = Running /\
  exists l, get_hint 2 (word kiwi_easy) (guessed_letters kiwi_easy) = Some l /\
            submit_guess (U:=ucd) (set_hint_used kiwi_easy) l
            = Again GoodGuessMsg (add_guess l (set_hint_used kiwi_easy)).
Proof.
  destruct (hint_is_a_good_guess (U:=ucd) kiwi_easy 2 eq_refl)
    as (l & Hh & _ & _ & Hgood).
  split; [reflexivity|]. exists l. split; [exact Hh|].
  apply Hgood.
  change (get_hint 2 (word kiwi_easy) (guessed_letters kiwi_easy))
    with (Some (lit "w")) in Hh.
  injection Hh as <-. reflexivity.
Defined.

(** X6. The word line that [display_game_state] shows has one cell for
    each letter of the word, in order; a cell shows its letter exactly when
    that letter is guessed; no cell is blank exactly when the round is won;
    and the attempts shown as remaining are [max_wrong - wrong_attempts]. *)
Theorem display_shows_guessed_letters (st : Round) (screen : Screen) :
  display_game_state (word st) (guessed_letters st) (wrong_attempts st)
    (max_wrong st) = Return screen ->
  length (display_word screen) = length (word st) /\
  (forall i c, word st !! i = Some c ->
     display_word screen !! i
     = Some (if decide ([c] ∈ guessed_letters st) then Some [c] else None)) /\
  (Forall is_Some (display_word screen) <-> verdict st = Win) /\
  attempts_remaining screen = max_wrong st - wrong_attempts st.
Proof.
  unfold display_game_state.
  destruct (list_getitem hangman_pics _) as [pic|e]; [|discriminate].
  simpl. intros [= <-]. simpl. split; [|split; [|split]]; [| | |done].
  - unfold letters. by rewrite !length_fmap.
  - intros i c Hc. unfold letters. rewrite !list_lookup_fmap, Hc. done.
  - rewrite Forall_fmap. unfold letters. rewrite Forall_fmap.
    rewrite Forall_forall. split.
    + intros Hall. apply verdict_win, all_guessed_true. intros c Hc.
      specialize (Hall c Hc). simpl in Hall.
      destruct (decide ([c] ∈ guessed_letters st)); [done|].
      by destruct Hall.
    + intros Hv c Hc. simpl.
      assert (Hall : all_guessed st = true).
      { unfold verdict in Hv. destruct (all_guessed st); [done|].
        by destruct (max_wrong st <=? wrong_attempts st). }
      rewrite all_guessed_true in Hall.
      rewrite decide_True by auto. by eexists.
Qed.

Lemma display_shows_guessed_letters_hi :
  exists screen,
    display_game_state (word hi_both) (guessed_letters hi_both)
      (wrong_attempts hi_both) (max_wrong hi_both) = Return screen /\
    display_word screen = [Some (lit "h"); Some (lit "i")] /\
    attempts_remaining screen = 0.
Proof.
  destruct (display_ok (word hi_both) (guessed_letters hi_both)
              (wrong_attempts hi_both) (max_wrong hi_both)) as [screen Hs];
    [simpl; lia|].
  exists screen. split; [exact Hs|].
  destruct (display_shows_guessed_letters hi_both screen Hs)
    as (_ & _ & _ & Hr).
  split; [|exact Hr].
  vm_compute in Hs. injection Hs as <-. reflexivity.
Defined.

Lemma play_skip {U : Unicode} st fs line r reply inputs :
  turn st line r = Again reply st ->
  play st fs ((line, r) :: inputs) = play st fs inputs.
Proof.
  intros Ht. destruct inputs as [|[line' r'] inputs]; simpl; rewrite Ht;
    simpl; destruct (display_game_state _ _ _ _); try done;
    destruct (verdict st); done.
Qed.

(** X7. Lines that the loop body turns down (it answers and leaves the
    round as it was) only cost new prompts: however many of them are typed
    in a row, the round ends as it does without them. *)
Theorem rejected_lines_are_skipped {U : Unicode} (st : Round) (fs : File)
    (rejected inputs : list (str * nat)) :
  Forall (fun i => exists reply, turn st i.1 i.2 = Again reply st) rejected ->
  play st fs (rejected ++ inputs) = play st fs inputs.
Proof.
  induction 1 as [|[line r] rejected [reply Ht] _ IH]; [done|].
  simpl in Ht. rewrite <- IH. simpl app. by eapply play_skip.
Qed.

Lemma rejected_lines_are_skipped_mango :
  let rejected := [(lit "42", 0%nat); (lit "", 0%nat); (lit "?", 0%nat)] in
  let rest := [(lit "m", 0%nat); (lit "a", 0%nat)] in
  play (U:=ucd) mango_hard Absent (rejected ++ rest)
  = play (U:=ucd) mango_hard Absent rest.
Proof.
  intros rejected rest.
  apply (rejected_lines_are_skipped (U:=ucd) mango_hard Absent rejected rest).
  repeat (constructor; [by exists SingleLetterMsg|]). constructor.
Defined.

Lemma turn_lowered {U : Unicode} st line r :
  lower (lower line) = lower line ->
  turn st (lower line) r = turn st line r.
Proof. intros E. unfold turn. by rewrite E. Qed.

(** X8. Capitals make no difference to a round: when lowercasing a
    lowercased line gives the same line again, replacing every line typed
    by its lowercase form leaves the outcome and the score file the
    same. *)
Theorem round_ignores_case {U : Unicode} (inputs : list (str * nat)) :
  forall st fs,
  Forall (fun i => lower (lower i.1) = lower i.1) inputs ->
  play st fs (lower_lines inputs) = play st fs inputs.
Proof.
  induction inputs as [|[line r] inputs IH]; intros st fs Hidem; [done|].
  apply Forall_cons in Hidem as [Hline Hrest]. simpl in *.
  rewrite turn_lowered by done.
  destruct (display_game_state _ _ _ _); [|done].
  destruct (verdict st); try done.
  destruct (turn st line r); [done|]. by apply IH.
Qed.

Lemma round_ignores_case_mango :
  let typed := [(lit "M", 0%nat); (lit "A", 0%nat); (lit "N", 0%nat);
                (lit "G", 0%nat); (lit "O", 0%nat)] in
  lower_lines (U:=ucd) typed
  = [(lit "m", 0%nat); (lit "a", 0%nat); (lit "n", 0%nat);
     (lit "g", 0%nat); (lit "o", 0%nat)] /\
  play (U:=ucd) mango_hard Absent (lower_lines (U:=ucd) typed)
  = play (U:=ucd) mango_hard Absent typed.
Proof.
  intros typed. split; [reflexivity|].
  apply (round_ignores_case (U:=ucd) typed mango_hard Absent).
  repeat constructor.
Defined.

Lemma after_good_frame gs : forall st,
  word (after_good st gs) = word st /\
  difficulty (after_good st gs) = difficulty st /\
  wrong_attempts (after_good st gs) = wrong_attempts st /\
  max_wrong (after_good st gs) = max_wrong st.
Proof.
  induction gs as [|g gs IH]; intros st; [done|].
  simpl. unfold after_good in IH. by rewrite !(proj1 (IH _)),
    !(proj1 (proj2 (IH _))), !(proj1 (proj2 (proj2 (IH _)))),
    !(proj2 (proj2 (proj2 (IH _)))).
Qed.

(** A run of distinct good letters that covers what is left of the word. *)
Lemma play_right_run {U : Unicode} inputs : forall st fs,
  0 <= wrong_attempts st < max_wrong st ->
  Forall (right_letter (word st)) (lowered inputs) ->
  NoDup (lowered inputs) ->
  (forall g, g ∈ lowered inputs -> g ∉ guessed_letters st) ->
  (forall l, l ∈ letters (word st) ->
             l ∈ guessed_letters st \/ l ∈ lowered inputs) ->
  play st fs inputs = win (after_good st (lowered inputs)) fs.
Proof.
  induction inputs as [|[line r] inputs IH];
    intros st fs Hw Hright Hnd Hnew Hcover; rewrite play_unfold by lia.
  - rewrite verdict_win; [done|]. apply all_guessed_true. intros c Hc.
    destruct (Hcover [c]) as [?|Hin]; [apply elem_of_letters; eauto|done|].
    by apply elem_of_nil in Hin.
  - apply Forall_cons in Hright as [(Hb & Hq & Ha & Hin) Hrest].
    apply NoDup_cons in Hnd as [Hfirst Hnd]. simpl in *.
    assert (Hg : lower line ∉ guessed_letters st).
    { apply Hnew. unfold lowered. simpl. apply elem_of_cons. by left. }
    assert (Hrun : verdict st = Running).
    { apply verdict_running; [|lia]. apply all_guessed_false.
      apply elem_of_letters in Hin as (c & Hc & ?). exists c.
      split; [done|]. by rewrite <- Hc. }
    assert (Ht : turn st line r
                 = Again GoodGuessMsg (add_guess (lower line) st)).
    { rewrite turn_guess by done. apply submit_guess_good; try done.
      - apply elem_of_letters in Hin as (c & -> & ?). done.
      - by apply letters_occur. }
    rewrite Hrun, Ht. apply IH; simpl; try done.
    + intros g Hgin. rewrite elem_of_union, elem_of_singleton.
      intros [-> | Hold]; [done|].
      eapply Hnew; [|done]. unfold lowered. simpl. apply elem_of_cons.
      by right.
    + intros l Hl. rewrite elem_of_union, elem_of_singleton.
      destruct (Hcover l Hl) as [?|Hc]; [by left; right|].
      unfold lowered in Hc. simpl in Hc.
      apply elem_of_cons in Hc as [-> | ?]; [by left; left | by right].
Qed.

(** X9. From a fresh round with at least one attempt allowed, typing each
    letter of the word once, in any order and with nothing else, wins the
    round with no wrong attempt; on a named difficulty the score is then
    ten points a letter times the multiplier. *)
Theorem perfect_round_wins {U : Unicode} (st0 : Round) (fs : File)
    (inputs : list (str * nat)) :
  fresh st0 -> 0 < max_wrong st0 ->
  Forall (right_letter (word st0)) (lowered inputs) ->
  NoDup (lowered inputs) ->
  (forall l, l ∈ letters (word st0) -> l ∈ lowered inputs) ->
  exists st,
    play st0 fs inputs = win st fs /\
    wrong_attempts st = 0 /\ word st = word st0 /\
    forall d, difficulty st0 = name d ->
      calculate_score (difficulty st) (Z.of_nat (length (word st)))
                      (wrong_attempts st)
      = Return (Z.of_nat (length (word st0)) * 10 * multiplier d).
Proof.
  intros (Hg & Hw & _) Hmax Hright Hnd Hcover.
  destruct (after_good_frame (lowered inputs) st0) as (Hword & Hd & Hwr & _).
  exists (after_good st0 (lowered inputs)).
  split; [|split; [congruence|split; [done|]]].
  - apply play_right_run; try done; [lia | | by right; apply Hcover].
    intros g _. rewrite Hg. apply not_elem_of_empty.
  - intros d Hname. rewrite Hd, Hword, Hwr, Hw, Hname, calculate_score_name.
    unfold computeScore_spec. f_equal. destruct d; simpl; lia.
Qed.

Lemma perfect_round_wins_mango :
  let inputs := [(lit "o", 0%nat); (lit "G", 0%nat); (lit "n", 0%nat);
                 (lit "a", 0%nat); (lit "M", 0%nat)] in
  exists st, play (U:=ucd) mango_hard Absent inputs = win st Absent /\
             wrong_attempts st = 0 /\
             calculate_score (difficulty st) (Z.of_nat (length (word st)))
                             (wrong_attempts st) = Return 150.
Proof.
  intros inputs.
  destruct (perfect_round_wins (U:=ucd) mango_hard Absent inputs)
    as (st & Hp & Hw & _ & Hscore).
  - repeat split.
  - reflexivity.
  - repeat (constructor;
            [repeat split; try discriminate;
             apply (bool_decide_unpack _); reflexivity|]).
    constructor.
  - apply (bool_decide_unpack _). reflexivity.
  - intros l Hl. apply (bool_decide_unpack _).
    repeat (apply elem_of_cons in Hl as [-> | Hl]; [reflexivity|]).
    by apply elem_of_nil in Hl.
  - exists st. split; [exact Hp|]. split; [exact Hw|].
    exact (Hscore Hard eq_refl).
Defined.

(** * Further properties of the score file and the score *)

Lemma save_score_true difficulty score fs fs' :
  save_score difficulty score fs = (Return true, fs') ->
  stored fs' difficulty = Return (JInt score).
Proof.
  unfold save_score. destruct (load_scores fs) as [scores|e]; [|discriminate].
  destruct (let* current := subscript scores difficulty in int_gt score current)
    as [[]|e]; [|discriminate|discriminate].
  destruct scores; simpl; try discriminate.
  intros [= <-]. unfold stored. simpl. apply getitem_Return.
  apply lookup_insert_eq.
Qed.

Lemma save_score_false difficulty score fs fs' :
  save_score difficulty score fs = (Return false, fs') -> fs' = fs.
Proof.
  unfold save_score. destruct (load_scores fs) as [scores|e]; [|discriminate].
  destruct (let* current := subscript scores difficulty in int_gt score current)
    as [[]|e]; [|by intros [= <-]|discriminate].
  destruct (store_subscript scores difficulty (JInt score)); discriminate.
Qed.

Lemma win_inv st fs score new_high fs' :
  win st fs = (Won (Return (score, new_high)), fs') ->
  calculate_score (difficulty st) (Z.of_nat (length (word st)))
                  (wrong_attempts st) = Return score /\
  save_score (difficulty st) score fs = (Return new_high, fs').
Proof.
  unfold win. destruct (calculate_score _ _ _) as [s|e]; [|discriminate].
  destruct (save_score (difficulty st) s fs) as [[b|e] fs1] eqn:Hs;
    [|discriminate].
  intros [= ? ? ?]. by subst.
Qed.

(** X10. When a round on a named difficulty ends with a score, the score
    lies between 0 and ten points a letter times the multiplier; if it is
    announced as a new high score the file then holds exactly that score
    for the difficulty, and if not the file is as it was. *)
Theorem won_score_bounds {U : Unicode} (inputs : list (str * nat)) :
  forall st fs d score new_high fs',
  0 <= wrong_attempts st -> difficulty st = name d ->
  play st fs inputs = (Won (Return (score, new_high)), fs') ->
  0 <= score <= Z.of_nat (length (word st)) * 10 * multiplier d /\
  (new_high = true -> stored fs' (name d) = Return (JInt score)) /\
  (new_high = false -> fs' = fs).
Proof.
  assert (Hwin : forall st fs d score new_high fs',
    0 <= wrong_attempts st -> difficulty st = name d ->
    win st fs = (Won (Return (score, new_high)), fs') ->
    0 <= score <= Z.of_nat (length (word st)) * 10 * multiplier d /\
    (new_high = true -> stored fs' (name d) = Return (JInt score)) /\
    (new_high = false -> fs' = fs)).
  { intros st fs d score new_high fs' Hw Hd [Hc Hs]%win_inv.
    rewrite Hd in Hc, Hs. rewrite calculate_score_name in Hc.
    injection Hc as <-. split; [|split].
    - unfold computeScore_spec. destruct d; simpl; lia.
    - intros ->. by eapply save_score_true.
    - intros ->. by eapply save_score_false. }
  induction inputs as [|[line r] inputs IH];
    intros st fs d score new_high fs' Hw Hd; rewrite play_unfold by done.
  - destruct (verdict st); [by apply Hwin | discriminate | discriminate].
  - destruct (verdict st); [by apply Hwin | discriminate |].
    destruct (turn st line r) as [|reply st1] eqn:Ht; [discriminate|].
    destruct (turn_frame _ _ _ _ _ Ht) as (Hword & _ & Hdiff & _ & _ & _ & Hge).
    intros Hp. rewrite <- Hword. eapply IH; [lia | congruence | done].
Qed.

Lemma won_score_bounds_mango :
  let inputs := [(lit "m", 0%nat); (lit "z", 0%nat); (lit "a", 0%nat);
                 (lit "n", 0%nat); (lit "g", 0%nat); (lit "o", 0%nat)] in
  exists fs',
    play (U:=ucd) mango_hard Absent inputs = (Won (Return (135, true)), fs') /\
    0 <= 135 <= 150 /\ stored fs' (lit "hard") = Return (JInt 135).
Proof.
  intros inputs. eexists. split; [reflexivity|].
  destruct (won_score_bounds (U:=ucd) inputs mango_hard Absent Hard 135 true
              _ ltac:(simpl; lia) eq_refl eq_refl) as (Hb & Hs & _).
  split; [exact Hb | exact (Hs eq_refl)].
Defined.

Lemma scores_ok_absent : scores_ok Absent.
Proof. intros d. exists 0. by destruct d. Qed.

Lemma scores_ok_garbled : scores_ok Garbled.
Proof. intros d. exists 0. by destruct d. Qed.

Lemma scores_ok_save fs d score :
  scores_ok fs ->
  exists new_high fs',
    save_score (name d) score fs = (Return new_high, fs') /\
    scores_ok fs' /\
    forall d' z, stored fs (name d') = Return (JInt z) ->
      exists z', stored fs' (name d') = Return (JInt z') /\ z <= z'.
Proof.
  intros Hok. destruct (Hok d) as [current Hcur].
  destruct (stored_inv _ _ _ Hcur) as (m & Hload & Hm).
  destruct (decide (current < score)) as [Hlt|Hge].
  - exists true, (Document (JDict (<[name d := JInt score]> m))).
    split; [by apply save_score_higher with current|].
    assert (Hst : forall d',
      stored (Document (JDict (<[name d := JInt score]> m))) (name d')
      = if decide (name d' = name d) then Return (JInt score)
        else stored fs (name d')).
    { intros d'. unfold stored at 1. simpl.
      destruct (decide (name d' = name d)) as [->|Hne].
      - apply getitem_Return, lookup_insert_eq.
      - rewrite (stored_dict fs m) by done. unfold getitem.
        by rewrite lookup_insert_ne. }
    split.
    + intros d'. rewrite Hst.
      destruct (decide (name d' = name d)); [by eexists|]. apply Hok.
    + intros d' z Hz. rewrite Hst.
      destruct (decide (name d' = name d)) as [E|].
      * exists score. split; [done|]. rewrite E, Hcur in Hz.
        injection Hz as <-. lia.
      * exists z. split; [done | lia].
  - exists false, fs.
    split; [apply save_score_not_higher with m current; (done || lia)|].
    split; [done|]. intros d' z Hz. exists z. split; [done | lia].
Qed.

(** X11. When the score file gives an integer for each of the three
    difficulties and [save_score] returns, the file it leaves again gives
    an integer for each and no stored score is lower than before; when it
    returns [False] the file is as it was.  A missing file and a file that
    [json.load] rejects count as such files, all scores zero. *)
Theorem save_score_keeps_record (fs fs' : File) (d : Difficulty) (score : Z)
    (new_high : bool) :
  scores_ok fs ->
  save_score (name d) score fs = (Return new_high, fs') ->
  scores_ok fs' /\
  (forall d' z, stored fs (name d') = Return (JInt z) ->
     exists z', stored fs' (name d') = Return (JInt z') /\ z <= z') /\
  (new_high = false -> fs' = fs).
Proof.
  intros Hok Hsave.
  destruct (scores_ok_save fs d score Hok) as (b & fs1 & E & Hok' & Hmono).
  rewrite E in Hsave. injection Hsave as -> ->.
  split; [done|]. split; [done|].
  intros ->. by eapply save_score_false.
Qed.

Lemma save_score_keeps_record_absent :
  let fs' := (save_score (lit "medium") 80 Absent).2 in
  scores_ok Absent /\
  save_score (lit "medium") 80 Absent = (Return true, fs') /\
  scores_ok fs' /\
  exists z', stored fs' (lit "easy") = Return (JInt z') /\ 0 <= z'.
Proof.
  intros fs'.
  destruct (save_score_keeps_record Absent fs' Medium 80 true
              scores_ok_absent eq_refl) as (Hok & Hmono & _).
  split; [exact scores_ok_absent|]. split; [reflexivity|].
  split; [exact Hok|]. exact (Hmono Easy 0 eq_refl).
Defined.

(** X12. The failures of [save_score] that come before it opens the file
    for writing, each leaving the file as it was: what [load_scores]
    raises ([PermissionError], [UnicodeDecodeError], [RecursionError],
    [ValueError]), [KeyError] when the document is a dict without the
    difficulty, [TypeError] when the document is not a dict or holds
    something that is not a number for the difficulty.  When [save_score]
    returns [False] the file is as it was too. *)
Theorem save_score_failures (difficulty : str) (score : Z) :
  (forall fs fs', save_score difficulty score fs = (Return false, fs') ->
                  fs' = fs) /\
  save_score difficulty score Denied = (Raise PermissionError, Denied) /\
  save_score difficulty score Binary = (Raise UnicodeDecodeError, Binary) /\
  save_score difficulty score TooDeep = (Raise RecursionError, TooDeep) /\
  save_score difficulty score Oversized = (Raise ValueError, Oversized) /\
  (forall m, m !! difficulty = None ->
     save_score difficulty score (Document (JDict m))
     = (Raise KeyError, Document (JDict m))) /\
  (forall v, (forall m, v <> JDict m) ->
     save_score difficulty score (Document v)
     = (Raise TypeError, Document v)) /\
  (forall m x, m !! difficulty = Some x ->
     match x with
     | JNull | JStr _ | JList _ | JDict _ =>
         save_score difficulty score (Document (JDict m))
         = (Raise TypeError, Document (JDict m))
     | _ => True
     end).
Proof.
  split; [intros fs fs'; apply save_score_false|].
  do 4 (split; [done|]). split; [|split].
  - intros m Hm. unfold save_score. simpl. unfold getitem. by rewrite Hm.
  - intros v Hv. unfold save_score. simpl.
    destruct v; try done. by destruct (Hv d).
  - intros m x Hm. unfold save_score. simpl. unfold getitem. rewrite Hm.
    by destruct x.
Qed.

Lemma difficulty_multiplier_lookup difficulty :
  difficulty_multiplier !! difficulty = None <->
  forall d, difficulty <> name d.
Proof.
  split.
  - intros Hn d ->. by destruct d.
  - intros Hne. unfold difficulty_multiplier.
    rewrite lookup_insert_ne by (intros E; by apply (Hne Easy)).
    rewrite lookup_insert_ne by (intros E; by apply (Hne Medium)).
    apply lookup_singleton_ne. intros E. by apply (Hne Hard).
Qed.

(** X13. [calculate_score] raises [KeyError] exactly when the difficulty
    is none of 'easy', 'medium', 'hard'; it raises nothing else. *)
Theorem calculate_score_key_error (difficulty : str)
    (word_length wrong_attempts : Z) :
  (calculate_score difficulty word_length wrong_attempts = Raise KeyError
   <-> forall d, difficulty <> name d) /\
  (forall e, calculate_score difficulty word_length wrong_attempts = Raise e ->
             e = KeyError).
Proof.
  unfold calculate_score, getitem.
  destruct (difficulty_multiplier !! difficulty) as [m|] eqn:E; simpl.
  - split; [|discriminate]. split; [discriminate|].
    intros Hne%difficulty_multiplier_lookup. congruence.
  - split; [|by intros e [= <-]]. split; [|done].
    intros _. by apply difficulty_multiplier_lookup.
Qed.

(** X14. On a named difficulty the score is never negative, does not go
    up when the wrong attempts go up, and is zero exactly when there are
    at least twice as many wrong attempts as letters. *)
Theorem calculate_score_monotone (d : Difficulty)
    (word_length wrong_attempts wrong_attempts' : Z) :
  wrong_attempts <= wrong_attempts' ->
  exists score score',
    calculate_score (name d) word_length wrong_attempts = Return score /\
    calculate_score (name d) word_length wrong_attempts' = Return score' /\
    0 <= score' <= score /\
    (score = 0 <-> 2 * word_length <= wrong_attempts).
Proof.
  intros Hle. eexists _, _. rewrite !calculate_score_name.
  split; [done|]. split; [done|]. unfold computeScore_spec.
  destruct d; simpl; lia.
Qed.

Lemma calculate_score_monotone_medium :
  1 <= 3 /\
  calculate_score (lit "medium") 5 1 = Return 90 /\
  calculate_score (lit "medium") 5 3 = Return 70.
Proof.
  destruct (calculate_score_monotone Medium 5 1 3)
    as (score & score' & H1 & H3 & _); [lia|].
  split; [lia|]. split; [reflexivity | reflexivity].
Defined.

(** * The menus and a whole call of [play_hangman] *)

Lemma start_name d w :
  exists st, start (name d) w = Return st /\
             fresh st /\ difficulty st = name d /\ word st = w /\
             wrong_attempts st = 0 /\ 0 < max_wrong st.
Proof. destruct d; eexists; repeat split. Qed.

Lemma word_categories_ok category :
  category ∈ word_categories.*1 ->
  exists words,
    items_getitem word_categories category = Return words /\
    words <> [] /\ forallb lowercase_word words = true.
Proof.
  intros Hin.
  repeat (apply elem_of_cons in Hin as [-> | Hin];
          [eexists; split; [reflexivity|]; split; [discriminate|];
           by vm_compute|]).
  by apply elem_of_nil in Hin.
Qed.

Lemma draw_word_ok category r :
  category ∈ word_categories.*1 ->
  exists w, draw_word category r = Return w /\ lowercase_word w = true.
Proof.
  intros (words & Hw & Hne & Hall)%word_categories_ok.
  unfold draw_word. rewrite Hw. simpl.
  destruct (random_choice_some r words Hne) as (w & -> & Hin).
  exists w. split; [done|].
  rewrite forallb_forall in Hall. by apply Hall, list_elem_of_In.
Qed.

Section Menus.
Context {P : IntParser}.

Lemma select_difficulty_name inputs difficulty rest :
  select_difficulty inputs = Some (difficulty, rest) ->
  (exists d, difficulty = name d) /\ (length rest < length inputs)%nat.
Proof.
  induction inputs as [|[line r] inputs IH]; simpl; [discriminate|].
  assert (Hnext : select_difficulty inputs = Some (difficulty, rest) ->
                  (exists d, difficulty = name d) /\
                  (length rest < S (length inputs))%nat).
  { intros [? ?]%IH. split; [done | lia]. }
  destruct (int_of_str line) as [choice|]; [|done].
  destruct (choice =? 1); [intros [= <- <-]; split; [by exists Easy | lia]|].
  destruct (choice =? 2); [intros [= <- <-]; split; [by exists Medium | lia]|].
  destruct (choice =? 3); [intros [= <- <-]; split; [by exists Hard | lia]|].
  done.
Qed.

Lemma select_category_key inputs res rest :
  select_category inputs = Some (res, rest) ->
  (exists category, res = Return category /\ category ∈ word_categories.*1) /\
  (length rest < length inputs)%nat.
Proof.
  induction inputs as [|[line r] inputs IH]; simpl; [discriminate|].
  assert (Hnext : select_category inputs = Some (res, rest) ->
            (exists category,
               res = Return category /\ category ∈ word_categories.*1) /\
            (length rest < S (length inputs))%nat).
  { intros [? ?]%IH. split; [done | lia]. }
  destruct (int_of_str line) as [choice|]; [|done].
  destruct (1 <=? choice) eqn:H1; simpl; [|exact Hnext].
  destruct (choice <=? _) eqn:H4; [|exact Hnext].
  apply Z.leb_le in H1, H4.
  intros [= <- <-]. split; [|lia].
  destruct (list_getitem_in_range (word_categories.*1) (choice - 1))
    as (category & Hg & Hl); [simpl; lia|].
  exists category. split; [done|]. by eapply list_elem_of_lookup_2.
Qed.

End Menus.

(** X15. [select_difficulty] returns only 'easy', 'medium' or 'hard', and
    uses up at least one line.  With what it returns, [start] succeeds for
    any word, giving a fresh round with at least one attempt allowed, and
    [calculate_score] returns a score. *)
Theorem select_difficulty_valid {P : IntParser} (inputs rest : list (str * nat))
    (difficulty : str) :
  select_difficulty inputs = Some (difficulty, rest) ->
  (exists d, difficulty = name d) /\
  (length rest < length inputs)%nat /\
  (forall w, exists st,
     start difficulty w = Return st /\ fresh st /\ word st = w /\
     0 < max_wrong st) /\
  (forall word_length wrong_attempts, exists score,
     calculate_score difficulty word_length wrong_attempts = Return score).
Proof.
  intros [[d ->] Hlen]%select_difficulty_name.
  split; [by exists d|]. split; [done|]. split.
  - intros w. destruct (start_name d w) as (st & ? & ? & _ & ? & _ & ?).
    by exists st.
  - intros wl wa. eexists. apply calculate_score_name.
Qed.

Lemma select_difficulty_valid_three :
  select_difficulty (P:=ascii_int) [(lit "3", 0%nat); (lit "m", 0%nat)]
  = Some (lit "hard", [(lit "m", 0%nat)]) /\
  exists st, start (lit "hard") (lit "mango") = Return st /\ fresh st.
Proof.
  split; [reflexivity|].
  destruct (select_difficulty_valid (P:=ascii_int)
              [(lit "3", 0%nat); (lit "m", 0%nat)] [(lit "m", 0%nat)]
              (lit "hard") eq_refl) as (_ & _ & Hstart & _).
  destruct (Hstart (lit "mango")) as (st & Hs & Hf & _).
  exists st. split; [exact Hs | exact Hf].
Defined.

(** X16. Both menus ask again after a line that [int] refuses or that is
    a number outside the choices: the lines before the first valid choice
    are passed over, the choice is taken, and the lines after it are left
    for the round. *)
Theorem menus_ask_again {P : IntParser} (skipped rest : list (str * nat))
    (line : str) (r : nat) (choice : Z) :
  Forall (fun i => forall c, int_of_str i.1 = Some c -> c < 1 \/ 4 < c)
         skipped ->
  int_of_str line = Some choice -> 1 <= choice <= 3 ->
  select_difficulty (skipped ++ (line, r) :: rest)
  = Some (if choice =? 1 then lit "easy"
          else if choice =? 2 then lit "medium" else lit "hard", rest) /\
  select_category (skipped ++ (line, r) :: rest)
  = Some (list_getitem (word_categories.*1) (choice - 1), rest).
Proof.
  intros Hskip Hline Hchoice.
  induction Hskip as [|[l0 r0] skipped Hbad _ IH].
  - cbn [app select_difficulty select_category]. rewrite Hline. split.
    + destruct (Z.eqb_spec choice 1); [done|].
      destruct (Z.eqb_spec choice 2); [done|].
      destruct (Z.eqb_spec choice 3); [done | lia].
    + change (Z.of_nat (length word_categories)) with 4.
      destruct (Z.leb_spec 1 choice); [|lia].
      destruct (Z.leb_spec choice 4); [done | lia].
  - cbn [app select_difficulty select_category]. cbn [fst] in Hbad.
    destruct (int_of_str l0) as [c|]; [|exact IH].
    change (Z.of_nat (length word_categories)) with 4.
    assert (Hc : c < 1 \/ 4 < c) by auto.
    destruct (Z.eqb_spec c 1); [lia|]. destruct (Z.eqb_spec c 2); [lia|].
    destruct (Z.eqb_spec c 3); [lia|].
    destruct (Z.leb_spec 1 c); [|exact IH].
    destruct (Z.leb_spec c 4); [lia | exact IH].
Qed.

Lemma menus_ask_again_twice :
  let typed := [(lit "abc", 0%nat); (lit "7", 0%nat); (lit "", 0%nat);
                (lit "2", 0%nat); (lit "x", 0%nat)] in
  select_difficulty (P:=ascii_int) typed
  = Some (lit "medium", [(lit "x", 0%nat)]) /\
  select_category (P:=ascii_int) typed
  = Some (Return (lit "animals"), [(lit "x", 0%nat)]).
Proof.
  intros typed.
  destruct (menus_ask_again (P:=ascii_int)
              [(lit "abc", 0%nat); (lit "7", 0%nat); (lit "", 0%nat)]
              [(lit "x", 0%nat)] (lit "2") 0%nat 2) as [Hd Hc].
  - repeat (constructor; [simpl; intros c [= <-] || intros c [=]; lia|]).
    constructor.
  - reflexivity.
  - lia.
  - split; [exact Hd | exact Hc].
Defined.

Lemma select_category_none {P : IntParser} inputs :
  select_category inputs = None ->
  Forall (fun i => forall c, int_of_str i.1 = Some c -> c < 1 \/ 4 < c) inputs.
Proof.
  induction inputs as [|[line r] inputs IH]; [constructor|].
  cbn [select_category]. change (Z.of_nat (length word_categories)) with 4.
  destruct (int_of_str line) as [choice|] eqn:Hline.
  - destruct (Z.leb_spec 1 choice); simpl.
    + destruct (Z.leb_spec choice 4); [discriminate|].
      intros Hn. constructor; [|by apply IH].
      simpl. rewrite Hline. intros c [= <-]. lia.
    + intros Hn. constructor; [|by apply IH].
      simpl. rewrite Hline. intros c [= <-]. lia.
  - intros Hn. constructor; [|by apply IH]. simpl. by rewrite Hline.
Qed.

(** X17. [select_category] raises nothing but the [EOFError] of [input]
    at the end of the lines typed, and it gets there only when no line
    typed is a number from 1 to 4.  Otherwise it returns: the index into
    the list of categories never fails, at least one line is used up, the
    result is one of the four categories, and the draw from that category
    succeeds whatever number is drawn, giving a word that is not empty and
    made of the letters a to z only. *)
Theorem select_category_valid {P : IntParser} (inputs : list (str * nat)) :
  match select_category inputs with
  | Some (res, rest) =>
      (length rest < length inputs)%nat /\
      exists category,
        res = Return category /\ category ∈ word_categories.*1 /\
        forall r, exists w,
          draw_word category r = Return w /\ lowercase_word w = true
  | None =>
      Forall (fun i => forall c, int_of_str i.1 = Some c -> c < 1 \/ 4 < c)
             inputs
  end.
Proof.
  destruct (select_category inputs) as [[res rest]|] eqn:Hsel.
  - apply select_category_key in Hsel as [(category & -> & Hin) Hlen].
    split; [done|]. exists category. split; [done|]. split; [done|].
    intros r. by apply draw_word_ok.
  - by apply select_category_none.
Qed.

Example select_category_fruits :
  select_category (P:=ascii_int) [(lit "0", 0%nat); (lit "1", 0%nat)]
  = Some (Return (lit "fruits"), []) /\
  draw_word (lit "fruits") 2 = Return (lit "mango") /\
  select_category (P:=ascii_int) [(lit "0", 0%nat); (lit "x", 0%nat)] = None.
Proof. repeat split. Qed.

(** In a round on a named difficulty, with a score file that has the three
    scores, the display, the score and the comparison of the scores succeed,
    and the file stays such a file. *)
Lemma play_safe {U : Unicode} inputs : forall st fs d,
  0 <= wrong_attempts st -> difficulty st = name d -> scores_ok fs ->
  match play st fs inputs with
  | (Crashed _, _) | (Won (Raise _), _) => False
  | (_, fs') => scores_ok fs'
  end.
Proof.
  assert (Hwin : forall st fs d,
    difficulty st = name d -> scores_ok fs ->
    match win st fs with
    | (Crashed _, _) | (Won (Raise _), _) => False
    | (_, fs') => scores_ok fs'
    end).
  { intros st fs d Hd Hok. unfold win.
    rewrite Hd, calculate_score_name.
    destruct (scores_ok_save fs d
                (computeScore_spec d (Z.of_nat (length (word st)))
                   (wrong_attempts st)) Hok)
      as (new_high & fs' & -> & Hok' & _). done. }
  induction inputs as [|[line r] inputs IH]; intros st fs d Hw Hd Hok;
    rewrite play_unfold by done.
  - destruct (verdict st); [by eapply Hwin | done | done].
  - destruct (verdict st); [by eapply Hwin | done |].
    destruct (turn st line r) as [|reply st1] eqn:Ht; [done|].
    destruct (turn_frame _ _ _ _ _ Ht) as (_ & _ & Hdiff & _ & _ & _ & Hge).
    apply (IH st1 fs d); [lia | congruence | done].
Qed.

(** X18. With a score file that gives an integer for each of the three
    difficulties (a missing file and a file that [json.load] rejects
    included), a call of [play_hangman] never raises [KeyError],
    [IndexError] or [TypeError], whatever is typed and whatever is drawn:
    every lookup in a table, every index into a list and the comparison of
    the scores succeed.  When the call returns, the file it leaves is again
    such a file. *)
Theorem play_hangman_lookups_succeed {U : Unicode} {P : IntParser}
    (fs : File) (r_word : nat) (inputs : list (str * nat)) :
  scores_ok fs ->
  match play_hangman_menus fs r_word inputs with
  | Escaped e _ => e <> KeyError /\ e <> IndexError /\ e <> TypeError
  | Returned _ fs' _ => scores_ok fs'
  end.
Proof.
  intros Hok. unfold play_hangman_menus.
  destruct (select_category inputs) as [[res rest]|] eqn:Hc; [|done].
  apply select_category_key in Hc as [(category & -> & Hin) _].
  destruct (select_difficulty rest) as [[difficulty rest']|] eqn:Hd; [|done].
  apply select_difficulty_name in Hd as [[d ->] _].
  destruct (draw_word_ok category r_word Hin) as (w & Hdraw & _).
  destruct (start_name d w) as (st & Hstart & _ & Hdiff & _ & Hwrong & _).
  assert (Hst : (let* difficulty_settings := getitem difficulty_levels (name d) in
                 let* word := draw_word category r_word in
                 start (name d) word) = Return st).
  { rewrite Hdraw. by destruct d. }
  rewrite Hst.
  pose proof (play_safe rest' st fs d ltac:(lia) Hdiff Hok) as Hsafe.
  destruct (play st fs rest') as [[[score|e]| | | |e] fs']; try done.
  - by destruct (unread st rest') as [|[line r] rest''].
  - by destruct (unread st rest') as [|[line r] rest''].
Qed.

(** Fruits, hard, the word drawn is 'mango'; the letters m, a, n, g, o win
    the round and "n" declines another one. *)
Lemma play_hangman_lookups_succeed_mango :
  let typed := [(lit "1", 0%nat); (lit "3", 0%nat); (lit "m", 0%nat);
                (lit "a", 0%nat); (lit "n", 0%nat); (lit "g", 0%nat);
                (lit "o", 0%nat); (lit "n", 0%nat)] in
  exists fs',
    play_hangman_menus (U:=ucd) (P:=ascii_int) Absent 2 typed
    = Returned (Some false) fs' [] /\
    scores_ok fs' /\ stored fs' (lit "hard") = Return (JInt 150).
Proof.
  intros typed.
  pose proof (play_hangman_lookups_succeed (U:=ucd) (P:=ascii_int)
                Absent 2 typed scores_ok_absent) as Hsafe.
  destruct (play_hangman_menus (U:=ucd) (P:=ascii_int) Absent 2 typed)
    as [again fs' rest|e fs'] eqn:Hcall; vm_compute in Hcall;
    try discriminate.
  injection Hcall as <- <- <-.
  eexists. split; [reflexivity|]. split; [exact Hsafe | reflexivity].
Defined.

(** The same call with the input closed after the fourth letter ends in
    the [EOFError] of [input], the score file untouched. *)
Example play_hangman_end_of_input :
  play_hangman_menus (U:=ucd) (P:=ascii_int) Absent 2
    [(lit "1", 0%nat); (lit "3", 0%nat); (lit "m", 0%nat);
     (lit "a", 0%nat); (lit "n", 0%nat); (lit "g", 0%nat)]
  = Escaped EOFError Absent.
Proof. by vm_compute. Qed.
